(** * Travel tracker: visit store, image down-scaling, persistence and flag fetcher

    A shallow embedding of the state-transforming core of [App.tsx] and of
    [scripts/download-flags.mjs], followed by the properties established
    for them.

    - The user data (a JS object keyed by country code) is a [gmap] from
      strings to records whose fields are all optional, because the
      source builds records by object spread and a field may be absent.
    - JS numbers that hold pixel counts and array indices are integers
      ([Z]); the other numbers are the rationals ([Q]) that double
      precision has, and a quotient or a product is rounded to the
      nearest of them, as JS does.
    - The script is embedded in a state-and-exception monad over a world
      that holds the file system, the trace of observable events and the
      process exit code; the network and the disk are oracles of the
      environment, and what the network answers is an untyped JS
      value. *)

From Stdlib Require Import ZArith QArith Qround Qminmax Qpower Qreduction Lqa.
From Stdlib Require Import Ascii String List Lia.
From stdpp Require Import base option list sorting gmap strings pretty.

#[local] Set Warnings "-register-all,-clear-no-such-hyp".

Local Open Scope string_scope.
Local Open Scope list_scope.
Local Open Scope Z_scope.

(* ===================================================================== *)
(** * JS built-ins used by the source *)
(* ===================================================================== *)

Module JS.

(** [Array.prototype.splice(start, deleteCount)] on an integer [start]:
    a negative [start] counts from the end, and both the start and the
    number of deleted elements are clamped to the array. The function
    returns the array as it is left after the call. *)
Definition splice_start (len start : Z) : Z :=
  if start <? 0 then Z.max (len + start) 0 else Z.min start len.

Definition splice {A} (l : list A) (start deleteCount : Z) : list A :=
  let len := Z.of_nat (length l) in
  let actualStart := splice_start len start in
  let actualDeleteCount := Z.min (Z.max deleteCount 0) (len - actualStart) in
  take (Z.to_nat actualStart) l
    ++ drop (Z.to_nat (actualStart + actualDeleteCount)) l.

(** [Math.round]: nearest integer, ties towards plus infinity. *)
Definition Math_round (x : Q) : Z := Qfloor (x + (1 # 2))%Q.

(** ** Numbers in double precision *)

(** The nearest integer, ties to the even one. *)
Definition roundHalfEven (x : Q) : Z :=
  let f := Qfloor x in
  match Qcompare (x - inject_Z f) (1 # 2) with
  | Lt => f
  | Gt => f + 1
  | Eq => if Z.even f then f else f + 1
  end.

(** The exponent [e] with 2^e <= x < 2^(e+1), for a positive [x]. *)
Definition binade (x : Q) : Z :=
  let k := Z.log2 (Qnum x) - Z.log2 (Zpos (Qden x)) in
  if Qle_bool (2 ^ k)%Q x then k else k - 1.

(** The exponent of the double nearest to [x]: that of [x], and not
    below that of the subnormal numbers. *)
Definition exponentOf (x : Q) : Z := Z.max (binade x) (-1022).

(** The double nearest to a positive rational: 53 significant bits,
    ties to even. The largest double is not modelled: no number of the
    source comes near it. *)
Definition nearest (x : Q) : Q :=
  let e := exponentOf x in
  (inject_Z (roundHalfEven (x * 2 ^ (52 - e))) * 2 ^ (e - 52))%Q.

Definition double (x : Q) : Q :=
  let y := Qred x in
  match Qnum y with
  | 0 => 0%Q
  | Zpos _ => nearest y
  | Zneg _ => (- nearest (- y))%Q
  end.

(** [x / y] and [x * y] on doubles. *)
Definition div (x y : Q) : Q := double (x / y).
Definition mul (x y : Q) : Q := double (x * y).

(** ** Values *)

(** A value as [JSON.parse] or [res.json()] gives it. A number is given
    by the text that JS prints for it, which is [0] for zero and for
    nothing else; the members of an object are listed with their keys,
    an earlier member hiding a later one of the same key. *)
Inductive Value :=
| Null
| Bool (b : bool)
| Number (shown : string)
| Text (s : string)
| Array (items : list Value)
| Object (members : list (string * Value)).

(** [Boolean(v)]: what [!v] and [if (v)] look at. *)
Definition toBoolean (v : Value) : bool :=
  match v with
  | Null => false
  | Bool b => b
  | Number shown => negb (String.eqb shown "0")
  | Text s => negb (String.eqb s EmptyString)
  | Array _ | Object _ => true
  end.

Fixpoint lookupMember (key : string) (members : list (string * Value))
    : option Value :=
  match members with
  | [] => None
  | (k, v) :: rest => if String.eqb k key then Some v else lookupMember key rest
  end.

(** [v?.key], for a key that no prototype defines: [undefined]
    ([None]) on [null], on a primitive value, on an array and on an
    object without the member. *)
Definition get (key : string) (v : Value) : option Value :=
  match v with
  | Object members => lookupMember key members
  | _ => None
  end.

(** [String(v)], which is what a template literal and [fetch] make of a
    value: an array is its elements joined by commas, [null] among them
    as the empty text. *)
Fixpoint toText (v : Value) : string :=
  match v with
  | Null => "null"
  | Bool true => "true"
  | Bool false => "false"
  | Number shown => shown
  | Text s => s
  | Array items =>
      (fix joined (l : list Value) : string :=
         match l with
         | [] => EmptyString
         | x :: rest =>
             let head := match x with Null => EmptyString | _ => toText x end in
             match rest with
             | [] => head
             | _ :: _ => head +:+ "," +:+ joined rest
             end
         end) items
  | Object _ => "[object Object]"
  end.

End JS.

(* ===================================================================== *)
(** * JSON.parse *)
(* ===================================================================== *)

(** The grammar of JSON texts that [JSON.parse] accepts (ECMA-404):
    literals, numbers, strings, arrays and objects, with the four JSON
    white-space characters between tokens. A text is a list of bytes.
    Numbers keep their lexeme and string literals keep their source form
    (escape sequences are checked, not decoded); the members of an
    object are kept in source order. *)

Module JSON.

Inductive value :=
| Null
| Bool (b : bool)
| Number (lexeme : string)
| Str (raw : string)
| Array (items : list value)
| Object (members : list (string * value)).

Definition quote : ascii := "034"%char.
Definition backslash : ascii := "\"%char.

Definition eqc (c d : ascii) : bool := Ascii.eqb c d.

Definition ws (c : ascii) : bool :=
  eqc c " " || eqc c "009" || eqc c "010" || eqc c "013".

Definition between (lo hi c : ascii) : bool :=
  (nat_of_ascii lo <=? nat_of_ascii c)%nat && (nat_of_ascii c <=? nat_of_ascii hi)%nat.

Definition digit : ascii → bool := between "0" "9".
Definition digit19 : ascii → bool := between "1" "9".
Definition hex (c : ascii) : bool :=
  digit c || between "a" "f" c || between "A" "F" c.
Definition control (c : ascii) : bool := (nat_of_ascii c <? 32)%nat.
Definition simple_escape (c : ascii) : bool :=
  eqc c quote || eqc c backslash || eqc c "/" || eqc c "b" || eqc c "f"
  || eqc c "n" || eqc c "r" || eqc c "t".

Fixpoint skip_ws (cs : list ascii) : list ascii :=
  match cs with
  | c :: cs' => if ws c then skip_ws cs' else cs
  | [] => []
  end.

(** The longest prefix of digits, and what follows it. *)
Fixpoint digits (cs : list ascii) : list ascii * list ascii :=
  match cs with
  | c :: cs' =>
      if digit c then let '(ds, r) := digits cs' in (c :: ds, r) else ([], cs)
  | [] => ([], [])
  end.

Fixpoint strip (prefix cs : list ascii) : option (list ascii) :=
  match prefix, cs with
  | [], _ => Some cs
  | p :: prefix', c :: cs' => if eqc p c then strip prefix' cs' else None
  | _ :: _, [] => None
  end.

(** A number: an optional minus sign; then a single 0, or a digit from
    1 to 9 followed by any digits; then optionally a point and at least
    one digit; then optionally e or E, an optional sign and at least
    one digit. *)
Definition number_int (cs : list ascii) : option (list ascii * list ascii) :=
  match cs with
  | c :: r =>
      if eqc c "0" then Some ([c], r)
      else if digit19 c then let '(ds, r') := digits r in Some (c :: ds, r')
      else None
  | [] => None
  end.

Definition number_frac (cs : list ascii) : option (list ascii * list ascii) :=
  match cs with
  | c :: r =>
      if eqc c "." then
        match digits r with
        | ([], _) => None
        | (ds, r') => Some (c :: ds, r')
        end
      else Some ([], cs)
  | [] => Some ([], [])
  end.

Definition number_sign (cs : list ascii) : list ascii * list ascii :=
  match cs with
  | c :: r => if eqc c "+" || eqc c "-" then ([c], r) else ([], cs)
  | [] => ([], [])
  end.

Definition number_exp (cs : list ascii) : option (list ascii * list ascii) :=
  match cs with
  | c :: r =>
      if eqc c "e" || eqc c "E" then
        let '(sg, r1) := number_sign r in
        match digits r1 with
        | ([], _) => None
        | (ds, r') => Some (c :: sg ++ ds, r')
        end
      else Some ([], cs)
  | [] => Some ([], [])
  end.

Definition number (cs : list ascii) : option (list ascii * list ascii) :=
  let '(minus, r0) :=
    match cs with
    | c :: r => if eqc c "-" then ([c], r) else ([], cs)
    | [] => ([], [])
    end in
  '(ip, r1) ← number_int r0;
  '(fp, r2) ← number_frac r1;
  '(ep, r3) ← number_exp r2;
  Some (minus ++ ip ++ fp ++ ep, r3).

(** The rest of a string literal after its opening quote: the source
    text up to the closing quote, and what follows that quote. *)
Fixpoint string_body (cs : list ascii) : option (list ascii * list ascii) :=
  match cs with
  | [] => None
  | c :: r =>
      if eqc c quote then Some ([], r)
      else if eqc c backslash then
        match r with
        | e :: r' =>
            if simple_escape e then
              '(s, rest) ← string_body r'; Some (c :: e :: s, rest)
            else if eqc e "u" then
              match r' with
              | h1 :: h2 :: h3 :: h4 :: r'' =>
                  if hex h1 && hex h2 && hex h3 && hex h4 then
                    '(s, rest) ← string_body r'';
                    Some (c :: e :: h1 :: h2 :: h3 :: h4 :: s, rest)
                  else None
              | _ => None
              end
            else None
        | [] => None
        end
      else if control c then None
      else '(s, rest) ← string_body r; Some (c :: s, rest)
  end.

Inductive presult :=
| POk (v : value) (rest : list ascii)
| PSyntaxError
| POutOfFuel.

Definition literal (word : string) (v : value) (cs : list ascii) : presult :=
  match strip (list_ascii_of_string word) cs with
  | Some r => POk v r
  | None => PSyntaxError
  end.

Fixpoint parse_value (fuel : nat) (cs : list ascii) {struct fuel} : presult :=
  match fuel with
  | O => POutOfFuel
  | S fuel =>
      match skip_ws cs with
      | [] => PSyntaxError
      | c :: r =>
          if eqc c "n" then literal "ull" Null r
          else if eqc c "t" then literal "rue" (Bool true) r
          else if eqc c "f" then literal "alse" (Bool false) r
          else if eqc c quote then
            match string_body r with
            | Some (s, r') => POk (Str (string_of_list_ascii s)) r'
            | None => PSyntaxError
            end
          else if eqc c "[" then
            match skip_ws r with
            | c' :: r' =>
                if eqc c' "]" then POk (Array []) r'
                else parse_elements fuel r []
            | [] => PSyntaxError
            end
          else if eqc c "{" then
            match skip_ws r with
            | c' :: r' =>
                if eqc c' "}" then POk (Object []) r'
                else parse_members fuel r []
            | [] => PSyntaxError
            end
          else
            match number (c :: r) with
            | Some (lexeme, r') => POk (Number (string_of_list_ascii lexeme)) r'
            | None => PSyntaxError
            end
      end
  end
with parse_elements (fuel : nat) (cs : list ascii) (acc : list value)
    {struct fuel} : presult :=
  match fuel with
  | O => POutOfFuel
  | S fuel =>
      match parse_value fuel cs with
      | POk v r =>
          match skip_ws r with
          | c :: r' =>
              if eqc c "," then parse_elements fuel r' (acc ++ [v])
              else if eqc c "]" then POk (Array (acc ++ [v])) r'
              else PSyntaxError
          | [] => PSyntaxError
          end
      | e => e
      end
  end
with parse_members (fuel : nat) (cs : list ascii)
    (acc : list (string * value)) {struct fuel} : presult :=
  match fuel with
  | O => POutOfFuel
  | S fuel =>
      match skip_ws cs with
      | q :: r =>
          if eqc q quote then
            match string_body r with
            | Some (k, r1) =>
                match skip_ws r1 with
                | colon :: r2 =>
                    if eqc colon ":" then
                      match parse_value fuel r2 with
                      | POk v r3 =>
                          let acc' := acc ++ [(string_of_list_ascii k, v)] in
                          match skip_ws r3 with
                          | c :: r4 =>
                              if eqc c "," then parse_members fuel r4 acc'
                              else if eqc c "}" then POk (Object acc') r4
                              else PSyntaxError
                          | [] => PSyntaxError
                          end
                      | e => e
                      end
                    else PSyntaxError
                | [] => PSyntaxError
                end
            | None => PSyntaxError
            end
          else PSyntaxError
      | [] => PSyntaxError
      end
  end.

(** Enough fuel for any text: see [parse_value_fuel]. *)
Definition fuel_for (cs : list ascii) : nat := S (2 * length cs).

(** [JSON.parse(text)]: [None] is the thrown [SyntaxError]. *)
Definition parse (text : string) : option value :=
  let cs := list_ascii_of_string text in
  match parse_value (fuel_for cs) cs with
  | POk v r => match skip_ws r with [] => Some v | _ :: _ => None end
  | PSyntaxError | POutOfFuel => None
  end.

End JSON.

(* ===================================================================== *)
(** * VisitStore: the [setUserData] updaters of [App.tsx] *)
(* ===================================================================== *)

Module VisitStore.

(** [CountryVisit] of [types.ts]. An object literal built by spread may
    lack any of the fields, so each one is optional here; [None] is the
    JS [undefined]. *)
Record CountryVisit := mkVisit {
  visited : option bool;
  date : option string;
  photos : option (list string)
}.

Abbreviation UserData := (gmap string CountryVisit).

(** The object [{}]: what spreading [undefined] contributes. *)
Definition emptyObject : CountryVisit := mkVisit None None None.

(** [{...prev[code]}] *)
Definition spread (o : option CountryVisit) : CountryVisit :=
  default emptyObject o.

(** [prev[code]?.visited] read as a condition: [undefined] is falsy. *)
Definition visitedOf (prev : UserData) (code : string) : bool :=
  default false (prev !! code ≫= visited).

(** [prev[code]?.photos || []] *)
Definition photosOf (prev : UserData) (code : string) : list string :=
  default [] (prev !! code ≫= photos).

(** [prev[code]?.date] *)
Definition dateOf (prev : UserData) (code : string) : option string :=
  prev !! code ≫= date.

Definition toggleVisit (code : string) (prev : UserData) : UserData :=
  <[code := {| visited := Some (negb (visitedOf prev code));
               date := date (spread (prev !! code));
               photos := Some (photosOf prev code) |}]> prev.

Definition updateDate (code d : string) (prev : UserData) : UserData :=
  <[code := {| visited := visited (spread (prev !! code));
               date := Some d;
               photos := photos (spread (prev !! code)) |}]> prev.

(** [prev[code] || { visited: false, date: '', photos: [] }] *)
Definition currentOr (prev : UserData) (code : string) : CountryVisit :=
  default (mkVisit (Some false) (Some EmptyString) (Some [])) (prev !! code).

Definition addPhoto (code photoDataUrl : string) (prev : UserData) : UserData :=
  let current := currentOr prev code in
  <[code := {| visited := visited current;
               date := date current;
               photos := Some (default [] (photos current) ++ [photoDataUrl]) |}]> prev.

(** The early [return] leaves the state as it is: no updater runs. *)
Definition addPhotos (code : string) (photoDataUrls : list string)
    (prev : UserData) : UserData :=
  if (Z.of_nat (length photoDataUrls) =? 0)%Z then prev
  else
    let current := currentOr prev code in
    <[code := {| visited := visited current;
                 date := date current;
                 photos := Some (default [] (photos current) ++ photoDataUrls) |}]> prev.

Definition removePhoto (code : string) (index : Z) (prev : UserData) : UserData :=
  let newPhotos := JS.splice (photosOf prev code) index 1 in
  <[code := {| visited := visited (spread (prev !! code));
               date := date (spread (prev !! code));
               photos := Some newPhotos |}]> prev.

(** The shape [types.ts] declares: [visited] and [photos] are required,
    [date] is optional. *)
Definition fullShape (r : CountryVisit) : Prop :=
  is_Some (visited r) ∧ is_Some (photos r).

End VisitStore.

(* ===================================================================== *)
(** * ImageCompressor: the size computation of [compressImageToDataUrl] *)
(* ===================================================================== *)

Module ImageCompressor.

(** [scale], then [(targetW, targetH)], the size given to the canvas.
    The quotient and the two products are doubles. *)
Definition scaleOf (width height : Z) (maxSize : Q) : Q :=
  Qmin 1 (JS.div maxSize (inject_Z (Z.max width height))).

Definition targetSize (width height : Z) (maxSize : Q) : Z * Z :=
  let scale := scaleOf width height maxSize in
  (Z.max 1 (JS.Math_round (JS.mul (inject_Z width) scale)),
   Z.max 1 (JS.Math_round (JS.mul (inject_Z height) scale))).

(** The same computation with any rounding [fl] of the quotient and of
    the products; with [JS.double] for [fl] it is [targetSize]. *)
Definition targetSizeWith (fl : Q → Q) (width height : Z) (maxSize : Q) : Z * Z :=
  let scale := Qmin 1 (fl (maxSize / inject_Z (Z.max width height))%Q) in
  (Z.max 1 (JS.Math_round (fl (inject_Z width * scale)%Q)),
   Z.max 1 (JS.Math_round (fl (inject_Z height * scale)%Q))).

(** The unit round-off of double precision, and the rounding property
    used of [fl]: between 2^-64 and 2^64 the rounded value is within the
    relative error 2^-53 of the exact one. *)
Definition roundOff : Q := 1 # (2 ^ 53).

Definition roundsLikeDouble (fl : Q → Q) : Prop :=
  ∀ x : Q, ((1 # 2 ^ 64) <= x <= inject_Z (2 ^ 64)
            → x * (1 - roundOff) <= fl x <= x * (1 + roundOff))%Q.

(** Sides of at most 2^49 pixels, which is more than the 32 bits of
    the width and the height of an image element. *)
Definition maxSide : Z := 2 ^ 49.

Definition defaultMaxSize : Q := inject_Z 1600.

(** The call [compressImageToDataUrl(file)] of [handleFileChange]. *)
Definition defaultTargetSize (width height : Z) : Z * Z :=
  targetSize width height defaultMaxSize.

End ImageCompressor.

(* ===================================================================== *)
(** * PersistenceGateway: the initialiser of the [userData] state *)
(* ===================================================================== *)

Module PersistenceGateway.

(** [localStorage]: text values under text keys; [getItem] gives
    [null] ([None]) for a key that is not there. *)
Abbreviation Storage := (gmap string string).

Definition getItem (key : string) (storage : Storage) : option string :=
  storage !! key.

Inductive outcome :=
| Returns (v : JSON.value)
| ThrowsSyntaxError.

(** The object literal [{}]. *)
Definition emptySnapshot : JSON.value := JSON.Object [].

(** [saved ? JSON.parse(saved) : {}]: [null] and the empty string are
    the falsy values of [saved]. *)
Definition loadFrom (saved : option string) : outcome :=
  match saved with
  | None => Returns emptySnapshot
  | Some text =>
      if String.eqb text EmptyString then Returns emptySnapshot
      else
        match JSON.parse text with
        | Some v => Returns v
        | None => ThrowsSyntaxError
        end
  end.

Definition load (storage : Storage) : outcome :=
  loadFrom (getItem "wanderlust_data" storage).

End PersistenceGateway.

(* ===================================================================== *)
(** * FlagFetcher: [scripts/download-flags.mjs] *)
(* ===================================================================== *)

Module FlagFetcher.

(** ** Text helpers *)

Definition mapChars (f : ascii → ascii) (s : string) : string :=
  string_of_list_ascii (map f (list_ascii_of_string s)).

Definition upperChar (c : ascii) : ascii :=
  if JSON.between "a" "z" c then ascii_of_nat (nat_of_ascii c - 32) else c.

Definition lowerChar (c : ascii) : ascii :=
  if JSON.between "A" "Z" c then ascii_of_nat (nat_of_ascii c + 32) else c.

(** [toUpperCase] and [toLowerCase] on the ASCII letters, the only
    ones a country code has. *)
Definition toUpperCase : string → string := mapChars upperChar.
Definition toLowerCase : string → string := mapChars lowerChar.

(** [arr.join(sep)] *)
Fixpoint join (sep : string) (arr : list string) : string :=
  match arr with
  | [] => EmptyString
  | [x] => x
  | x :: rest => x +:+ sep +:+ join sep rest
  end.

Definition hexDigit (n : nat) : ascii :=
  if (n <? 10)%nat then ascii_of_nat (48 + n) else ascii_of_nat (55 + n).

Definition unreserved (c : ascii) : bool :=
  JSON.between "A" "Z" c || JSON.between "a" "z" c || JSON.digit c
  || JSON.eqc c "-" || JSON.eqc c "_" || JSON.eqc c "." || JSON.eqc c "!"
  || JSON.eqc c "~" || JSON.eqc c "*" || JSON.eqc c "'" || JSON.eqc c "("
  || JSON.eqc c ")".

(** [encodeURIComponent] on a text given as its UTF-8 bytes: every
    byte that is not unreserved becomes a percent sign and two
    upper-case hexadecimal digits. *)
Definition encodeChar (c : ascii) : list ascii :=
  if unreserved c then [c]
  else
    let n := nat_of_ascii c in
    ["%"%char; hexDigit (n / 16); hexDigit (n mod 16)].

Definition encodeURIComponent (s : string) : string :=
  string_of_list_ascii (concat (map encodeChar (list_ascii_of_string s))).

(** [path.join] of a directory and a name without dots or slashes. *)
Definition path_join (dir name : string) : string := dir +:+ "/" +:+ name.

(** ** Constants of the script *)

Definition RESTCOUNTRIES_ALPHA_URL : string := "https://restcountries.com/v3.1/alpha".
Definition REQUEST_TIMEOUT_MS : Z := 20000.
Definition RETRIES : Z := 3.
Definition CODES_PER_CHUNK : Z := 25.

(** ** [getCountryCodesFromConstants] *)

(** White space of the regular expression class [\s] among the ASCII
    characters. *)
Definition reSpace (c : ascii) : bool :=
  JSON.eqc c " " || JSON.between "009" "013" c.

Fixpoint skipSpaces (cs : list ascii) : nat * list ascii :=
  match cs with
  | c :: cs' =>
      if reSpace c then let '(n, r) := skipSpaces cs' in (S n, r) else (O, cs)
  | [] => (O, [])
  end.

(** One attempt to match [code:], any white space, and a quoted pair
    of upper-case letters at the head of [cs]: the captured group and
    the length of the match. *)
Definition matchAt (cs : list ascii) : option (string * nat) :=
  match JSON.strip (list_ascii_of_string "code:") cs with
  | Some r =>
      let '(n, r') := skipSpaces r in
      match r' with
      | q1 :: a :: b :: q2 :: _ =>
          if JSON.eqc q1 JSON.quote && JSON.between "A" "Z" a
             && JSON.between "A" "Z" b && JSON.eqc q2 JSON.quote
          then Some (string_of_list_ascii [a; b], (5 + n + 4)%nat)
          else None
      | _ => None
      end
  | None => None
  end.

(** The loop [while ((match = re.exec(source)) !== null)] of a global
    regular expression: the leftmost match from the current position,
    then on from the end of that match. [skip] counts the characters
    of the last match still to pass over. *)
Fixpoint execAll (cs : list ascii) (skip : nat) : list string :=
  match cs with
  | [] => []
  | _ :: cs' =>
      match skip with
      | S k => execAll cs' k
      | O =>
          match matchAt cs with
          | Some (code, len) => code :: execAll cs' (len - 1)
          | None => execAll cs' O
          end
      end
  end.

(** [Set]: the first occurrence of each element, in insertion order. *)
Fixpoint setOf (l : list string) (seen : list string) : list string :=
  match l with
  | [] => []
  | x :: l' =>
      if bool_decide (x ∈ seen) then setOf l' seen
      else x :: setOf l' (x :: seen)
  end.

(** [Array.prototype.sort()] without a comparator, on ASCII texts:
    ascending in the order of the character codes. *)
Fixpoint insertSorted (x : string) (l : list string) : list string :=
  match l with
  | [] => [x]
  | y :: l' => if String.leb x y then x :: l else y :: insertSorted x l'
  end.

Definition sort (l : list string) : list string :=
  fold_right insertSorted [] l.

Definition getCountryCodesFromConstants (source : string) : list string :=
  sort (setOf (execAll (list_ascii_of_string source) O) []).

(** ** [chunk] *)

(** [for (let i = 0; i < arr.length; i += size) out.push(arr.slice(i, i + size))];
    the fuel bounds the number of rounds and is enough for a positive
    [size]. *)
Fixpoint chunkFrom {A} (fuel : nat) (arr : list A) (size : nat) : list (list A) :=
  match fuel, arr with
  | S fuel', _ :: _ => take size arr :: chunkFrom fuel' (drop size arr) size
  | _, _ => []
  end.

Definition chunk {A} (arr : list A) (size : Z) : list (list A) :=
  chunkFrom (length arr) arr (Z.to_nat size).

(** ** The world of the script *)

(** What the script throws and catches. *)
Inductive Err :=
| HttpError (status : Z) (url : string)
    (* [new Error(`HTTP ${res.status} for ${url}`)] *)
| FetchError (message : string)
    (* [fetch] rejects: no connection, a text that is no URL, or the
       abort after the time-out *)
| BodyError (message : string)
    (* [res.json()] or [res.arrayBuffer()] rejects *)
| FsError (message : string)
    (* a rejection of [fs.readFile], [fs.access], [fs.mkdir] or
       [fs.writeFile] *)
| TypeError (message : string)
    (* a value that is not iterable, or that has no [toUpperCase] *)
| Undefined.
    (* the value of [lastError] before its first assignment *)

(** [e?.message || e], as the console prints it. *)
Definition shown (e : Err) : string :=
  match e with
  | HttpError status url => "HTTP " +:+ pretty status +:+ " for " +:+ url
  | FetchError m | BodyError m | FsError m | TypeError m => m
  | Undefined => "undefined"
  end.

(** A response of [fetch]: [res.ok], [res.status], and what
    [res.json()] and [res.arrayBuffer()] resolve to ([None]: reject).
    The value of [res.json()] is whatever JSON the body holds: the
    annotation of the source,
    [Array<{ cca2?: string, flags?: { svg?: string } }>], is a comment
    and checks nothing. *)
Record Response := mkResponse {
  ok : bool;
  status : Z;
  json : option JS.Value;
  arrayBuffer : option string
}.

Inductive FetchOutcome :=
| Resolves (res : Response)
| Rejects (message : string).

Inductive Event :=
| Fetch (url : string)
| Sleep (ms : Z)
| Mkdir (path : string)
| WriteFile (path bytes : string)
| ConsoleError (args : list string)
| ConsoleLog (args : list string).

(** The files with their contents, the events so far (oldest first),
    and [process.exitCode] ([None]: never assigned, the process then
    ends with status 0). *)
Record World := mkWorld {
  files : gmap string string;
  trace : list Event;
  exitCode : option Z
}.

(** The calls that change the disk. *)
Inductive FsCall :=
| MkdirCall (path : string)
| WriteFileCall (path bytes : string).

(** The environment: the working directory; the network, an oracle
    that answers the [n]-th request of the run (from 0) for a URL; and
    the disk, an oracle that accepts a call in the state the world is
    in ([None]) or refuses it with a message. A request that runs into
    [REQUEST_TIMEOUT_MS] is one that the network rejects. *)
Record Env := mkEnv {
  ROOT : string;
  network : nat → string → FetchOutcome;
  disk : World → FsCall → option string
}.

Definition isFetch (ev : Event) : bool :=
  match ev with Fetch _ => true | _ => false end.

(** The number of network requests in a trace. *)
Definition requestCount (t : list Event) : nat :=
  length (filter isFetch t).

Definition emit (ev : Event) (w : World) : World :=
  mkWorld (files w) (trace w ++ [ev]) (exitCode w).

(** ** The monad of asynchronous functions: state and exceptions *)

Inductive result (A : Type) :=
| Ok (a : A)
| Throw (e : Err).
Arguments Ok {A} a.
Arguments Throw {A} e.

Definition M (A : Type) : Type := World → result A * World.

Definition ret {A} (a : A) : M A := λ w, (Ok a, w).
Definition throw {A} (e : Err) : M A := λ w, (Throw e, w).
Definition bind {A B} (m : M A) (k : A → M B) : M B :=
  λ w, match m w with
       | (Ok a, w') => k a w'
       | (Throw e, w') => (Throw e, w')
       end.
(** [try { body } catch (e) { handler }] *)
Definition tryCatch {A} (body : M A) (handler : Err → M A) : M A :=
  λ w, match body w with
       | (Ok a, w') => (Ok a, w')
       | (Throw e, w') => handler e w'
       end.
Definition perform (ev : Event) : M unit := λ w, (Ok tt, emit ev w).
(** Code that touches nothing and returns or throws. *)
Definition settle {A} (r : result A) : M A := λ w, (r, w).

Notation "'let*' x := c 'in' k" := (bind c (λ x, k))
  (at level 10, x name, c at level 100, k at level 200).
Notation "'let*' ' p := c 'in' k" := (bind c (λ x, match x with p => k end))
  (at level 10, p pattern, c at level 100, k at level 200).

Definition sleep (ms : Z) : M unit := perform (Sleep ms).
Definition console_error (args : list string) : M unit := perform (ConsoleError args).
Definition console_log (args : list string) : M unit := perform (ConsoleLog args).

Definition setExitCode (c : Z) : M unit :=
  λ w, (Ok tt, mkWorld (files w) (trace w) (Some c)).

(** [fs.readFile(path, 'utf8')] *)
Definition readFile (path : string) : M string :=
  λ w, match files w !! path with
       | Some text => (Ok text, w)
       | None => (Throw (FsError ("ENOENT: no such file or directory, open '" +:+ path +:+ "'")), w)
       end.

(** [fs.access(path)]: resolves when the path exists. *)
Definition access (path : string) : M unit :=
  λ w, match files w !! path with
       | Some _ => (Ok tt, w)
       | None => (Throw (FsError ("ENOENT: no such file or directory, access '" +:+ path +:+ "'")), w)
       end.

(** What stands in the way of [fs.mkdir(path, { recursive: true })]
    among the files: a regular file at [path], or at one of the
    directories above it. *)
Definition blockedBy (path : string) (files : gmap string string) : option string :=
  if bool_decide (is_Some (files !! path))
  then Some ("EEXIST: file already exists, mkdir '" +:+ path +:+ "'")
  else if existsb (λ key, String.prefix (key +:+ "/") path) (fst <$> map_to_list files)
  then Some ("ENOTDIR: not a directory, mkdir '" +:+ path +:+ "'")
  else None.

(** ** Reading an answer of the metadata endpoint *)

(** A value that is there and truthy: [if (!v) continue] goes on with
    the others. *)
Definition truthy (o : option JS.Value) : option JS.Value :=
  match o with
  | Some v => if JS.toBoolean v then Some v else None
  | None => None
  end.

(** What [for (const item of data)] goes through: the elements of an
    array, the characters of a text; any other value is not iterable. *)
Definition iterate (data : JS.Value) : result (list JS.Value) :=
  match data with
  | JS.Array items => Ok items
  | JS.Text s => Ok ((λ c, JS.Text (String c EmptyString)) <$> list_ascii_of_string s)
  | _ => Throw (TypeError "data is not iterable")
  end.

(** The body of that loop:
    [const code = item?.cca2; const svg = item?.flags?.svg;
     if (!code || !svg) continue; map.set(code.toUpperCase(), svg)].
    Only a text has [toUpperCase]. *)
Definition addItem (map : gmap string JS.Value) (item : JS.Value)
    : result (gmap string JS.Value) :=
  match truthy (JS.get "cca2" item), truthy (JS.get "flags" item ≫= JS.get "svg") with
  | Some code, Some svg =>
      match code with
      | JS.Text s => Ok (<[toUpperCase s := svg]> map)
      | _ => Throw (TypeError "code.toUpperCase is not a function")
      end
  | _, _ => Ok map
  end.

Fixpoint addItems (map : gmap string JS.Value) (items : list JS.Value)
    : result (gmap string JS.Value) :=
  match items with
  | [] => Ok map
  | item :: later =>
      match addItem map item with
      | Ok map' => addItems map' later
      | Throw e => Throw e
      end
  end.

(** Lines 102 to 107 for one answer. *)
Definition addAnswer (map : gmap string JS.Value) (data : JS.Value)
    : result (gmap string JS.Value) :=
  match iterate data with
  | Ok items => addItems map items
  | Throw e => Throw e
  end.

Section Script.

Variable env : Env.

Definition CONSTANTS_PATH : string := path_join (ROOT env) "constants.ts".
Definition OUTPUT_DIR : string := path_join (path_join (ROOT env) "public") "flags".

(** Why [fs.mkdir(path, { recursive: true })] rejects, if it does: a
    regular file is in the way, or the disk refuses the call. *)
Definition mkdirRefusal (path : string) (w : World) : option string :=
  match blockedBy path (files w) with
  | Some m => Some m
  | None => disk env w (MkdirCall path)
  end.

(** [fs.mkdir(path, { recursive: true })] and [fs.writeFile(path, bytes)]:
    a call that rejects leaves the files as they are. *)
Definition mkdir (path : string) : M unit :=
  λ w, match mkdirRefusal path w with
       | None => (Ok tt, emit (Mkdir path) w)
       | Some m => (Throw (FsError m), w)
       end.

Definition writeFile (path bytes : string) : M unit :=
  λ w, match disk env w (WriteFileCall path bytes) with
       | None => (Ok tt, mkWorld (<[path := bytes]> (files w))
                                 (trace w ++ [WriteFile path bytes]) (exitCode w))
       | Some m => (Throw (FsError m), w)
       end.

(** The script passes no [signal]; the time-out is the oracle's. *)
Definition fetchWithTimeout (url : string) : M Response :=
  λ w, match network env (requestCount (trace w)) url with
       | Resolves res => (Ok res, emit (Fetch url) w)
       | Rejects m => (Throw (FetchError m), emit (Fetch url) w)
       end.

Definition res_json (res : Response) : M JS.Value :=
  match json res with
  | Some data => ret data
  | None => throw (BodyError "Unexpected end of JSON input")
  end.

Definition res_arrayBuffer (res : Response) : M string :=
  match arrayBuffer res with
  | Some bytes => ret bytes
  | None => throw (BodyError "terminated")
  end.

(** One round of the loop of [fetchJsonWithRetries]: the body of its
    [try]. *)
Definition fetchJsonOnce (url : string) : M JS.Value :=
  let* res := fetchWithTimeout url in
  if negb (ok res) then throw (HttpError (status res) url)
  else res_json res.

(** The rounds of
    [for (let attempt = 1; attempt <= RETRIES; attempt += 1)] that
    are still to run. *)
Fixpoint fetchJsonRounds (attempts : list Z) (lastError : Err) (url : string)
    : M JS.Value :=
  match attempts with
  | [] => throw lastError
  | attempt :: later =>
      tryCatch (fetchJsonOnce url)
        (λ e, let* _ := sleep (500 * attempt) in
              fetchJsonRounds later e url)
  end.

Definition fetchJsonWithRetries (url : string) : M JS.Value :=
  fetchJsonRounds (seqZ 1 RETRIES) Undefined url.

Definition download (url : string) : M string :=
  let* res := fetchWithTimeout url in
  if negb (ok res) then throw (HttpError (status res) url)
  else res_arrayBuffer res.

Fixpoint downloadRounds (attempts : list Z) (lastError : Err) (url : string)
    : M string :=
  match attempts with
  | [] => throw lastError
  | attempt :: later =>
      tryCatch (download url)
        (λ e, let* _ := sleep (400 * attempt) in
              downloadRounds later e url)
  end.

Definition downloadWithRetries (url : string) : M string :=
  downloadRounds (seqZ 1 RETRIES) Undefined url.

Definition chunkUrl (part : list string) : string :=
  RESTCOUNTRIES_ALPHA_URL +:+ "?codes=" +:+ encodeURIComponent (join "," part)
    +:+ "&fields=cca2,flags".

Definition chunkFailure (part : list string) (e : Err) : Event :=
  ConsoleError ["Failed to load chunk from restcountries (" +:+ join ", " part +:+ "):";
                shown e].

(** The loop [for (const part of chunks)] of [getFlagUrlByCode]. The
    lookup is inside the [try]; the reading of the answer is after
    it, so what it throws leaves the function. *)
Fixpoint resolveChunks (chunks : list (list string)) (map : gmap string JS.Value)
    : M (gmap string JS.Value) :=
  match chunks with
  | [] => ret map
  | part :: later =>
      let* loaded :=
        tryCatch (let* data := fetchJsonWithRetries (chunkUrl part) in
                  ret (Some data))
                 (λ e, let* _ := perform (chunkFailure part e) in
                       ret None) in
      match loaded with
      | None => resolveChunks later map
      | Some data =>
          let* map' := settle (addAnswer map data) in
          resolveChunks later map'
      end
  end.

Definition getFlagUrlByCode (codes : list string) : M (gmap string JS.Value) :=
  resolveChunks (chunk codes CODES_PER_CHUNK) ∅.

Definition outPathOf (code : string) : string :=
  path_join OUTPUT_DIR (toLowerCase code +:+ ".svg").

(** The loop [for (const code of codes)] of [main], with its two
    counters. [downloadWithRetries(url)] hands [url] to [fetch] and to
    a template literal, which both take its text. *)
Fixpoint downloadEach (flagUrlByCode : gmap string JS.Value) (codes : list string)
    (ok failed : nat) : M (nat * nat) :=
  match codes with
  | [] => ret (ok, failed)
  | code :: later =>
      let outPath := outPathOf code in
      let* present :=
        tryCatch (let* _ := access outPath in ret true) (λ _, ret false) in
      if present : bool then downloadEach flagUrlByCode later (S ok) failed
      else
        match truthy (flagUrlByCode !! code) with
        | None =>
            let* _ := console_error
                        ["Failed " +:+ code +:+ ": no flag URL from restcountries"] in
            downloadEach flagUrlByCode later ok (S failed)
        | Some url =>
            let* saved :=
              tryCatch (let* bytes := downloadWithRetries (JS.toText url) in
                        let* _ := writeFile outPath bytes in
                        ret true)
                       (λ e, let* _ := console_error
                                         ["Failed " +:+ code +:+ ":"; shown e] in
                             ret false) in
            if saved : bool then downloadEach flagUrlByCode later (S ok) failed
            else downloadEach flagUrlByCode later ok (S failed)
        end
  end.

Definition doneLine (ok failed : nat) : string :=
  "Done. Saved/exists: " +:+ pretty ok +:+ ". Failed: " +:+ pretty failed
    +:+ ". Output: " +:+ OUTPUT_DIR.

(** The first line of the diagnostic of the [catch] in [main]. *)
Definition abortLine : string := "Failed to load flag URLs from restcountries.com.".

(** [main] from the point where [codes] is known. *)
Definition run (codes : list string) : M unit :=
  let* _ := mkdir OUTPUT_DIR in
  let* resolved :=
    tryCatch (let* m := getFlagUrlByCode codes in ret (Some m))
             (λ e, let* _ := console_error [abortLine] in
                   let* _ := console_error
                               ["Check your internet/VPN/firewall and try again."] in
                   let* _ := console_error [shown e] in
                   let* _ := setExitCode 1 in
                   ret None) in
  match resolved with
  | None => ret tt
  | Some flagUrlByCode =>
      let* '(ok, failed) := downloadEach flagUrlByCode codes 0 0 in
      let* _ := console_log [doneLine ok failed] in
      if (0 <? failed)%nat then setExitCode 1 else ret tt
  end.

Definition main : M unit :=
  let* src := readFile CONSTANTS_PATH in
  run (getCountryCodesFromConstants src).

End Script.

(** ** Reading a run *)

Definition emitAll (evs : list Event) (w : World) : World :=
  mkWorld (files w) (trace w ++ evs) (exitCode w).

(** What one round of [fetchJsonWithRetries] makes of the answer of
    the network, and what one call of [download] makes of it. *)
Definition jsonAttempt (url : string) (answer : FetchOutcome) : result JS.Value :=
  match answer with
  | Rejects m => Throw (FetchError m)
  | Resolves res =>
      if negb (ok res) then Throw (HttpError (status res) url)
      else match json res with
           | Some data => Ok data
           | None => Throw (BodyError "Unexpected end of JSON input")
           end
  end.

Definition bytesAttempt (url : string) (answer : FetchOutcome) : result string :=
  match answer with
  | Rejects m => Throw (FetchError m)
  | Resolves res =>
      if negb (ok res) then Throw (HttpError (status res) url)
      else match arrayBuffer res with
           | Some bytes => Ok bytes
           | None => Throw (BodyError "terminated")
           end
  end.

(** The retry policy in the words of its description: three attempts
    [a1], [a2], [a3] at most; the first one that succeeds gives the
    result; a failed attempt number k is followed by a wait of k times
    [baseDelay]; after three failures the error of the third is
    thrown. *)
Definition retryPolicy {A} (baseDelay : Z) (url : string)
    (a1 a2 a3 : result A) (w : World) : result A * World :=
  match a1, a2, a3 with
  | Ok x, _, _ =>
      (Ok x, emitAll [Fetch url] w)
  | Throw _, Ok x, _ =>
      (Ok x, emitAll [Fetch url; Sleep (baseDelay * 1); Fetch url] w)
  | Throw _, Throw _, Ok x =>
      (Ok x, emitAll [Fetch url; Sleep (baseDelay * 1);
                      Fetch url; Sleep (baseDelay * 2); Fetch url] w)
  | Throw _, Throw _, Throw e =>
      (Throw e, emitAll [Fetch url; Sleep (baseDelay * 1);
                         Fetch url; Sleep (baseDelay * 2);
                         Fetch url; Sleep (baseDelay * 3)] w)
  end.

(** An event of the metadata phase for the chunks [chunks]: a request
    for one of the chunks, a wait, or the report of a failed chunk. *)
Definition metadataEvent (chunks : list (list string)) (ev : Event) : Prop :=
  match ev with
  | Fetch url => ∃ part, part ∈ chunks ∧ url = chunkUrl part
  | Sleep _ => True
  | ConsoleError _ => ∃ part e, part ∈ chunks ∧ ev = chunkFailure part e
  | _ => False
  end.

(** Every destination file of the run is there. *)
Definition allPresent (env : Env) (codes : list string) (w : World) : Prop :=
  Forall (λ code, is_Some (files w !! outPathOf env code)) codes.

(** No destination file of the run is there. *)
Definition nonePresent (env : Env) (codes : list string) (w : World) : Prop :=
  Forall (λ code, files w !! outPathOf env code = None) codes.

(** Every metadata lookup fails, whatever the request. *)
Definition metadataUnreachable (env : Env) : Prop :=
  ∀ n url, ∃ e, jsonAttempt url (network env n url) = Throw e.

(** The output directory can be made, in the state [w]: no file is in
    the way and the disk accepts the call. *)
Definition mkdirAccepted (env : Env) (w : World) : Prop :=
  mkdirRefusal env (OUTPUT_DIR env) w = None.

(** The disk lets every file be written, at any time. *)
Definition writesAccepted (env : Env) : Prop :=
  ∀ w path bytes, disk env w (WriteFileCall path bytes) = None.

(** An answer that lines 102 to 107 read without a [TypeError]: it
    can be iterated, and an entry that has a truthy [cca2] and a
    truthy [flags.svg] has a text for [cca2]. The answers of the
    annotated type are of this kind. *)
Definition readableItem (item : JS.Value) : bool :=
  match truthy (JS.get "cca2" item), truthy (JS.get "flags" item ≫= JS.get "svg") with
  | Some (JS.Text _), Some _ => true
  | Some _, Some _ => false
  | _, _ => true
  end.

Definition readable (data : JS.Value) : bool :=
  match iterate data with
  | Ok items => forallb readableItem items
  | Throw _ => false
  end.

(** Every answer that a metadata lookup can get is of that kind. *)
Definition answersReadable (env : Env) : Prop :=
  ∀ n url data, jsonAttempt url (network env n url) = Ok data → readable data = true.

(** The three lines of the [catch] in [main]. *)
Definition abortEvents (e : Err) : list Event :=
  [ConsoleError [abortLine];
   ConsoleError ["Check your internet/VPN/firewall and try again."];
   ConsoleError [shown e]].

(** The line that [main] prints for a code without a resolved URL. *)
Definition noUrlLine (code : string) : Event :=
  ConsoleError ["Failed " +:+ code +:+ ": no flag URL from restcountries"].

(** The exit status of the process after [main]: the assigned
    [process.exitCode], and 1 for a rejection that nothing handles. *)
Definition exitStatus (r : result unit * World) : Z :=
  match r with
  | (Ok _, w) => default 0 (exitCode w)
  | (Throw _, _) => 1
  end.

End FlagFetcher.

(* ===================================================================== *)
(** * Lightbox: the photo viewer of [App.tsx] *)
(* ===================================================================== *)

Module Lightbox.

Import VisitStore.

(** [selectedCountry ? (userData[selectedCountry.code]?.photos || []) : []];
    of the selected country only its code is used. *)
Definition lightboxPhotos (selectedCountry : option string) (userData : UserData)
    : list string :=
  match selectedCountry with
  | Some code => photosOf userData code
  | None => []
  end.

(** [(lightboxIndex != null && lightboxIndex >= 0
      && lightboxIndex < lightboxPhotos.length)
      ? lightboxPhotos[lightboxIndex] : null] *)
Definition lightboxPhoto (lightboxIndex : option Z) (photos : list string)
    : option string :=
  match lightboxIndex with
  | Some i =>
      if (0 <=? i) && (i <? Z.of_nat (length photos)) then photos !! Z.to_nat i
      else None
  | None => None
  end.

Definition closeLightbox (lightboxIndex : option Z) : option Z := None.

(** The two handlers give the next value of [lightboxIndex]; a [return]
    before [setLightboxIndex] leaves it as it is. The operator [%] of JS
    takes the sign of the dividend: [Z.rem]. *)
Definition showPrevLightbox (lightboxIndex : option Z) (photos : list string)
    : option Z :=
  match lightboxIndex with
  | None => None
  | Some i =>
      let len := Z.of_nat (length photos) in
      if len =? 0 then Some i else Some (Z.rem (i - 1 + len) len)
  end.

Definition showNextLightbox (lightboxIndex : option Z) (photos : list string)
    : option Z :=
  match lightboxIndex with
  | None => None
  | Some i =>
      let len := Z.of_nat (length photos) in
      if len =? 0 then Some i else Some (Z.rem (i + 1) len)
  end.

(** [onKeyDown]; the listener is installed only while [lightboxIndex]
    is not [null]. *)
Definition onKeyDown (key : string) (lightboxIndex : option Z) (photos : list string)
    : option Z :=
  match lightboxIndex with
  | None => None
  | Some _ =>
      if String.eqb key "Escape" then closeLightbox lightboxIndex
      else if String.eqb key "ArrowLeft" then showPrevLightbox lightboxIndex photos
      else if String.eqb key "ArrowRight" then showNextLightbox lightboxIndex photos
      else lightboxIndex
  end.

End Lightbox.

(* ===================================================================== *)
(** * PhotoUpload: [compressImageToDataUrl] and [handleFileChange] *)
(* ===================================================================== *)

Module PhotoUpload.

Import VisitStore.

(** What the browser makes of a chosen file: the result of the
    [FileReader] ([None]: [reader.onerror]), the size of the decoded
    image ([None]: [img.onerror]), whether the canvas gives a 2d context,
    and the JPEG data URL of the image drawn at a given canvas size and
    quality. *)
Record File := mkFile {
  readerResult : option string;
  decoded : option (Z * Z);
  context2d : bool;
  toDataURL : Z → Z → Q → string
}.

Inductive settled :=
| Resolved (dataUrl : string)
| Rejected (message : string).

Definition defaultQuality : Q := 41 # 50.

(** The promise of [compressImageToDataUrl(file, maxSize, quality)]. *)
Definition compressImageToDataUrl (file : File) (maxSize quality : Q) : settled :=
  match readerResult file with
  | None => Rejected "read_failed"
  | Some _ =>
      match decoded file with
      | None => Rejected "image_decode_failed"
      | Some (width, height) =>
          let '(targetW, targetH) := ImageCompressor.targetSize width height maxSize in
          if context2d file then Resolved (toDataURL file targetW targetH quality)
          else Rejected "canvas_failed"
      end
  end.

(** The two pieces of state that [handleFileChange] writes. *)
Record AppState := mkState {
  userData : UserData;
  storageError : option string
}.

Definition processingNotice : string :=
  "Не удалось обработать одно из фото. Попробуй другое изображение.".

(** The loop [for (const file of files)] with its array [next] and the
    notice set in its [catch]. *)
Fixpoint compressEach (files : list File) (next : list string)
    (storageError : option string) : list string * option string :=
  match files with
  | [] => (next, storageError)
  | file :: later =>
      match compressImageToDataUrl file ImageCompressor.defaultMaxSize defaultQuality with
      | Resolved dataUrl => compressEach later (next ++ [dataUrl]) storageError
      | Rejected _ => compressEach later next (Some processingNotice)
      end
  end.

Definition handleFileChange (files : list File) (code : string) (st : AppState)
    : AppState :=
  if (Z.of_nat (length files) =? 0)%Z then st
  else
    let '(next, notice) := compressEach files [] (storageError st) in
    mkState (addPhotos code next (userData st)) notice.

(** The data URL of a file that compresses, at the default settings. *)
Definition compressed (file : File) : option string :=
  match compressImageToDataUrl file ImageCompressor.defaultMaxSize defaultQuality with
  | Resolved dataUrl => Some dataUrl
  | Rejected _ => None
  end.

End PhotoUpload.

(* ===================================================================== *)
(** * VisitStats: the counter of visited countries *)
(* ===================================================================== *)

Module VisitStats.

Import VisitStore.

(** [v.visited] as the condition of the filter. *)
Definition isVisited (v : CountryVisit) : bool := default false (visited v).

(** [Object.values(userData).filter(v => v.visited).length] *)
Definition visitedCount (userData : UserData) : nat :=
  length (filter (λ v, isVisited v = true) (snd <$> map_to_list userData)).

(** [Math.round((visitedCount / COUNTRIES.length) * 100)], for a
    registry of [total] countries; the quotient and the product are
    doubles. *)
Definition progress (userData : UserData) (total : Z) : Z :=
  JS.Math_round
    (JS.mul (JS.div (inject_Z (Z.of_nat (visitedCount userData))) (inject_Z total)) 100).


(** The four updaters as commands on one country. *)
Inductive action :=
| Toggle
| SetDate (d : string)
| AddPhotos (photoDataUrls : list string)
| RemovePhoto (index : Z).

Definition act (a : action) (code : string) (prev : UserData) : UserData :=
  match a with
  | Toggle => toggleVisit code prev
  | SetDate d => updateDate code d prev
  | AddPhotos photoDataUrls => addPhotos code photoDataUrls prev
  | RemovePhoto index => removePhoto code index prev
  end.

End VisitStats.

(* ===================================================================== *)
(** * Reading the registry codes and the runs of the script *)
(* ===================================================================== *)

Module FlagFetcherReading.

Import FlagFetcher.

(** A text of exactly two upper-case ASCII letters. *)
Definition isCode (s : string) : bool :=
  match s with
  | String a (String b EmptyString) => JSON.between "A" "Z" a && JSON.between "A" "Z" b
  | _ => false
  end.

(** Each element is before the next in the order of the character
    codes, strictly. *)
Definition ascending (l : list string) : Prop :=
  Sorted (λ a b, String.ltb a b = true) l.


(** The final line of a run with [ok] successes and [failed] failures. *)
Definition doneEvent (env : Env) (ok failed : nat) : Event :=
  ConsoleLog [doneLine env ok failed].

(** The three ways in which a run ends. *)
Definition refusedRun (env : Env) (codes : list string) (w : World) : Prop :=
  ∃ m, mkdirRefusal env (OUTPUT_DIR env) w = Some m
       ∧ run env codes w = (Throw (FsError m), w).

Definition abortedRun (env : Env) (codes : list string) (w : World) : Prop :=
  ∃ e evs,
    run env codes w
    = (Ok tt,
       mkWorld (files w) (trace w ++ Mkdir (OUTPUT_DIR env) :: evs ++ abortEvents e)
         (Some 1))
    ∧ Forall (metadataEvent (chunk codes CODES_PER_CHUNK)) evs
    ∧ (requestCount evs ≤ 3 * length (chunk codes CODES_PER_CHUNK))%nat.

Definition completedRun (env : Env) (codes : list string) (w : World) : Prop :=
  ∃ (ok failed : nat) evs (files' : gmap string string),
    run env codes w
    = (Ok tt,
       mkWorld files'
         (trace w ++ Mkdir (OUTPUT_DIR env) :: evs ++ [doneEvent env ok failed])
         (if (0 <? failed)%nat then Some 1 else exitCode w))
    ∧ (ok + failed = length codes)%nat
    ∧ files w ⊆ files'
    ∧ (∀ path, files w !! path = None → is_Some (files' !! path) →
               ∃ code, code ∈ codes ∧ path = outPathOf env code)
    ∧ (failed = 0%nat →
       Forall (λ code, is_Some (files' !! outPathOf env code)) codes)
    ∧ (requestCount evs
       ≤ 3 * (length (chunk codes CODES_PER_CHUNK) + length codes))%nat.

(** A network that works. The metadata endpoint answers the lookup of
    a chunk, at any time, with one entry for each code of the chunk,
    giving the flag URL [urlOf code]; and a download from [urlOf code]
    gives, at any time, the bytes [bytesOf code]. *)
Definition itemOf (urlOf : string → string) (code : string) : JS.Value :=
  JS.Object [("cca2", JS.Text code);
             ("flags", JS.Object [("svg", JS.Text (urlOf code))])].

Definition answersMetadata (env : Env) (urlOf : string → string)
    (chunks : list (list string)) : Prop :=
  ∀ n part, part ∈ chunks →
    jsonAttempt (chunkUrl part) (network env n (chunkUrl part))
    = Ok (JS.Array (itemOf urlOf <$> part)).

Definition answersDownloads (env : Env) (urlOf bytesOf : string → string)
    (codes : list string) : Prop :=
  ∀ n code, code ∈ codes →
    bytesAttempt (urlOf code) (network env n (urlOf code)) = Ok (bytesOf code).

(** The codes are in upper case and not empty, and so are their URLs
    not empty. *)
Definition plainCodes (urlOf : string → string) (codes : list string) : Prop :=
  Forall (λ code, toUpperCase code = code ∧ code ≠ EmptyString
                  ∧ urlOf code ≠ EmptyString) codes.

End FlagFetcherReading.

Module MoreSamples.

Import FlagFetcher FlagFetcherReading.

Definition flagUrl (code : string) : string :=
  "https://flagcdn.com/" +:+ toLowerCase code +:+ ".svg".

Definition flagBytes (code : string) : string := "<svg/>".

(** A network that answers a lookup with the entries of the three
    sample codes and a download with the same picture, and a disk that
    accepts every call. *)
Definition working : Env :=
  mkEnv "/repo"
    (λ _ _, Resolves (mkResponse true 200
                        (Some (JS.Array (itemOf flagUrl <$> ["FR"; "JP"; "US"])))
                        (Some (flagBytes "FR"))))
    (λ _ _, None).

End MoreSamples.

(* ===================================================================== *)
(** * Sample inputs *)
(* ===================================================================== *)

Module Samples.

Import VisitStore.

(** A snapshot with one visited country and two photos. *)
Definition twoPhotos : UserData :=
  {[ "FR" := mkVisit (Some true) None (Some ["a"; "b"]) ]}.

(** A text between double quotes. *)
Definition quoted (s : string) : string :=
  String JSON.quote (s +:+ String JSON.quote EmptyString).

(** A stored snapshot, and the same text cut short. *)
Definition storedSnapshot : string :=
  "{" +:+ quoted "FR" +:+ ":{" +:+ quoted "visited" +:+ ":true,"
    +:+ quoted "photos" +:+ ":[]}}".

Definition truncatedSnapshot : string :=
  "{" +:+ quoted "FR" +:+ ":{" +:+ quoted "visited" +:+ ":tr".

(** The registry of the script with the codes US, FR and JP. *)
Definition constants : string :=
  "{ name: " +:+ quoted "United States" +:+ ", code: " +:+ quoted "US" +:+ " }, "
    +:+ "{ name: " +:+ quoted "France" +:+ ", code: " +:+ quoted "FR" +:+ " }, "
    +:+ "{ name: " +:+ quoted "Japan" +:+ ", code: " +:+ quoted "JP" +:+ " }".

Import FlagFetcher.

(** A disk that accepts every call. *)
Definition accepting : World → FsCall → option string := λ _ _, None.

(** A network on which every request is refused. *)
Definition unreachable : Env :=
  mkEnv "/repo" (λ _ _, Rejects "fetch failed") accepting.

(** A network that answers every request with the metadata of the
    three countries. *)
Definition flagOf (code : string) : JS.Value :=
  JS.Object
    [("cca2", JS.Text code);
     ("flags",
      JS.Object [("svg", JS.Text ("https://flagcdn.com/" +:+ toLowerCase code +:+ ".svg"))])].

Definition reachable : Env :=
  mkEnv "/repo"
    (λ _ _, Resolves (mkResponse true 200
                        (Some (JS.Array [flagOf "US"; flagOf "FR"; flagOf "JP"]))
                        (Some "<svg/>")))
    accepting.

(** A network that answers every request with status 200 and a JSON
    object in place of the array of entries. *)
Definition misshapen : Env :=
  mkEnv "/repo"
    (λ _ _, Resolves (mkResponse true 200
                        (Some (JS.Object [("message", JS.Text "Too many requests")]))
                        (Some "<svg/>")))
    accepting.

(** The network of [reachable] with a disk on which nothing can be
    made or written. *)
Definition readOnly : Env :=
  mkEnv "/repo" (network reachable)
    (λ _ _, Some "EROFS: read-only file system").

(** A fresh checkout: the registry and no flag file. *)
Definition freshCheckout : World :=
  mkWorld {[ "/repo/constants.ts" := constants ]} [] None.

(** A checkout in which [public] is a regular file. *)
Definition blocked : World :=
  mkWorld {[ "/repo/constants.ts" := constants;
             "/repo/public" := "not a directory" ]} [] None.

(** The checkout after a complete run: every flag file is there. *)
Definition populated : World :=
  mkWorld {[ "/repo/constants.ts" := constants;
             "/repo/public/flags/us.svg" := "<svg/>";
             "/repo/public/flags/fr.svg" := "<svg/>";
             "/repo/public/flags/jp.svg" := "<svg/>" ]} [] None.

Import PhotoUpload.

(** A picture of [width] by [height] pixels that is read and decoded,
    on a canvas whose data URL tells its size. *)
Definition picture (width height : Z) : File :=
  mkFile (Some "data:image/png;base64,AAAA") (Some (width, height)) true
    (λ targetW targetH _, pretty targetW +:+ "x" +:+ pretty targetH).

End Samples.

(* ===================================================================== *)
(** * Properties of the VisitStore *)
(* ===================================================================== *)

Section VisitStoreFacts.

Import VisitStore.

Implicit Types (prev : UserData) (code c : string) (index : Z).

Lemma splice_start_past_end (len start : Z) :
  0 ≤ len → len ≤ start → JS.splice_start len start = len.
Proof.
  intros Hlen Hle. unfold JS.splice_start.
  destruct (start <? 0) eqn:Hneg; [apply Z.ltb_lt in Hneg|]; lia.
Qed.

(** Deleting from the end of the array on, or from an empty array,
    deletes nothing. *)
Lemma splice_past_end {A} (l : list A) (start deleteCount : Z) :
  Z.of_nat (length l) ≤ start ∨ l = [] → JS.splice l start deleteCount = l.
Proof.
  intros [Hle | ->].
  - unfold JS.splice. rewrite splice_start_past_end by lia.
    replace (Z.min (Z.max deleteCount 0) (Z.of_nat (length l) - Z.of_nat (length l)))
      with 0 by lia.
    rewrite Z.add_0_r, Nat2Z.id, firstn_all, drop_all. apply app_nil_r.
  - unfold JS.splice. by rewrite take_nil, drop_nil.
Qed.

(** A negative start inside the array deletes the element that many
    places before the end. *)
Lemma splice_negative_start {A} (l : list A) (start : Z) :
  - Z.of_nat (length l) ≤ start < 0 →
  JS.splice l start 1
  = take (Z.to_nat (Z.of_nat (length l) + start)) l
      ++ drop (S (Z.to_nat (Z.of_nat (length l) + start))) l.
Proof.
  intros [Hlo Hhi]. unfold JS.splice, JS.splice_start.
  destruct (start <? 0) eqn:Hneg; [|apply Z.ltb_ge in Hneg; lia].
  rewrite Z.max_l by lia.
  replace (Z.min (Z.max 1 0) _) with 1 by lia.
  do 2 f_equal. lia.
Qed.

Lemma photosOf_insert prev code c (r : CountryVisit) :
  photosOf (<[code := r]> prev) c
  = if decide (code = c) then default [] (photos r) else photosOf prev c.
Proof.
  unfold photosOf. rewrite lookup_insert. by case_decide.
Qed.

(** C4, as amended. With an index at or past the end of the photo
    sequence of [code], or with an empty sequence (which is also what a
    missing record has), [removePhoto] gives a snapshot in which every
    photo sequence is the one of the input; it is a total function and
    so raises nothing. *)
Theorem removePhoto_past_end_unchanged prev code index :
  Z.of_nat (length (photosOf prev code)) ≤ index ∨ photosOf prev code = [] →
  ∀ c, photosOf (removePhoto code index prev) c = photosOf prev c.
Proof.
  intros Hout c. unfold removePhoto. rewrite photosOf_insert.
  case_decide as Hc; [subst c; simpl|done].
  by apply splice_past_end.
Qed.

Lemma removePhoto_past_end_unchanged_witness :
  (Z.of_nat (length (photosOf Samples.twoPhotos "FR")) ≤ 2
   ∨ photosOf Samples.twoPhotos "FR" = [])
  ∧ ∀ c, photosOf (removePhoto "FR" 2 Samples.twoPhotos) c
         = photosOf Samples.twoPhotos c.
Proof.
  assert (Z.of_nat (length (photosOf Samples.twoPhotos "FR")) ≤ 2
          ∨ photosOf Samples.twoPhotos "FR" = []) as Hout
    by (left; vm_compute; discriminate).
  split; [exact Hout|].
  exact (removePhoto_past_end_unchanged Samples.twoPhotos "FR" 2 Hout).
Defined.

(** C4, as stated, fails: the index -1 is out of bounds, and
    [removePhoto] removes the last photo. *)
Lemma removePhoto_negative_index_removes_last :
  -1 < 0
  ∧ photosOf Samples.twoPhotos "FR" = ["a"; "b"]
  ∧ photosOf (removePhoto "FR" (-1) Samples.twoPhotos) "FR" = ["a"].
Proof. repeat split. Qed.

(** What a negative index does in general: it counts from the end. *)
Lemma removePhoto_negative_index prev code index :
  - Z.of_nat (length (photosOf prev code)) ≤ index < 0 →
  photosOf (removePhoto code index prev) code
  = delete (Z.to_nat (Z.of_nat (length (photosOf prev code)) + index))
      (photosOf prev code).
Proof.
  intros Hrange. unfold removePhoto. rewrite photosOf_insert.
  rewrite decide_True by done. simpl.
  rewrite splice_negative_start by done.
  by rewrite delete_take_drop.
Qed.

(** The other fields of the record, and the other records, are kept by
    [removePhoto] whatever the index. *)
Lemma removePhoto_keeps prev code index :
  visitedOf (removePhoto code index prev) code = visitedOf prev code
  ∧ dateOf (removePhoto code index prev) code = dateOf prev code
  ∧ ∀ c, c ≠ code → removePhoto code index prev !! c = prev !! c.
Proof.
  unfold removePhoto, visitedOf, dateOf. rewrite !lookup_insert_eq.
  repeat split.
  - by destruct (prev !! code).
  - by destruct (prev !! code).
  - intros c Hc. by rewrite lookup_insert_ne.
Qed.

Lemma toggleVisit_twice_record prev code :
  toggleVisit code (toggleVisit code prev) !! code
  = Some {| visited := Some (visitedOf prev code);
            date := dateOf prev code;
            photos := Some (photosOf prev code) |}.
Proof.
  unfold toggleVisit at 1. rewrite lookup_insert_eq.
  unfold visitedOf at 1, photosOf at 1, toggleVisit, dateOf.
  rewrite !lookup_insert_eq. simpl.
  rewrite negb_involutive. by destruct (prev !! code).
Qed.

(** C6. After two [toggleVisit] on [code] there is a record for
    [code]; its visited flag is the one read from the original
    snapshot (false without a record), its date field is the original
    one, and its photos are the original sequence. Read through the
    accessors of the source, the three values are the original ones,
    and no other record has changed. *)
Theorem toggleVisit_twice prev code :
  let twice := toggleVisit code (toggleVisit code prev) in
  twice !! code
  = Some {| visited := Some (visitedOf prev code);
            date := dateOf prev code;
            photos := Some (photosOf prev code) |}
  ∧ visitedOf twice code = visitedOf prev code
  ∧ dateOf twice code = dateOf prev code
  ∧ photosOf twice code = photosOf prev code
  ∧ ∀ c, twice !! c = if decide (code = c) then twice !! code else prev !! c.
Proof.
  simpl. unfold visitedOf at 2, dateOf at 2, photosOf at 2.
  rewrite toggleVisit_twice_record. repeat split.
  intros c. case_decide as Hc; [by subst; rewrite toggleVisit_twice_record|].
  unfold toggleVisit. by rewrite !lookup_insert_ne.
Qed.

(** A record of the declared shape is given back as it was. *)
Lemma toggleVisit_twice_fullShape prev code (r : CountryVisit) :
  prev !! code = Some r → fullShape r →
  toggleVisit code (toggleVisit code prev) = prev.
Proof.
  intros Hr [[b Hb] [ps Hps]]. apply map_eq. intros c.
  destruct (decide (code = c)) as [<-|Hc].
  - rewrite toggleVisit_twice_record. unfold visitedOf, dateOf, photosOf.
    rewrite Hr. simpl. rewrite Hb, Hps. simpl. destruct r; simpl in *. by subst.
  - unfold toggleVisit. by rewrite !lookup_insert_ne.
Qed.

(** A single [toggleVisit] flips the flag it reads. *)
Lemma toggleVisit_flips prev code :
  visitedOf (toggleVisit code prev) code = negb (visitedOf prev code).
Proof. unfold toggleVisit, visitedOf at 1. by rewrite lookup_insert_eq. Qed.

(** C7. With no image [addPhotos] returns the snapshot it is given.
    With at least one image the record of [code] keeps its visited
    flag and date and gets the images after its photos, in their
    order; without a record the base is visited = false, the empty
    date and no photos. No other record changes. *)
Theorem addPhotos_appends prev code (p : string) (ps : list string) :
  addPhotos code [] prev = prev
  ∧ addPhotos code (p :: ps) prev !! code
    = Some match prev !! code with
           | Some r => {| visited := visited r; date := date r;
                          photos := Some (default [] (photos r) ++ p :: ps) |}
           | None => {| visited := Some false; date := Some EmptyString;
                        photos := Some (p :: ps) |}
           end
  ∧ photosOf (addPhotos code (p :: ps) prev) code = photosOf prev code ++ p :: ps
  ∧ ∀ c, addPhotos code (p :: ps) prev !! c
         = if decide (code = c) then addPhotos code (p :: ps) prev !! code
           else prev !! c.
Proof.
  split; [done|].
  unfold addPhotos, currentOr, photosOf. simpl.
  rewrite !lookup_insert_eq.
  split; [by destruct (prev !! code)|].
  split; [by destruct (prev !! code)|].
  intros c. rewrite lookup_insert. case_decide; [by subst|done].
Qed.

(** C9. [addPhoto] with one image is [addPhotos] with the sequence of
    that image alone. *)
Theorem addPhoto_is_addPhotos_singleton prev code (p : string) :
  addPhoto code p prev = addPhotos code [p] prev.
Proof. reflexivity. Qed.

(** C10. Without a record for [code], [updateDate] makes one that has
    the date and nothing else: the visited flag and the photos are
    absent, so the record lacks the fields [types.ts] requires. *)
Theorem updateDate_creates_date_only prev code (d : string) :
  prev !! code = None →
  updateDate code d prev !! code
  = Some {| visited := None; date := Some d; photos := None |}
  ∧ ¬ fullShape {| visited := None; date := Some d; photos := None |}.
Proof.
  intros Hnone. unfold updateDate. rewrite lookup_insert_eq, Hnone. simpl.
  split; [done|].
  intros [Hv _]. simpl in Hv. by destruct Hv.
Qed.

Lemma updateDate_creates_date_only_witness :
  (∅ : UserData) !! "FR" = None
  ∧ updateDate "FR" "2024-05-01" ∅ !! "FR"
    = Some {| visited := None; date := Some "2024-05-01"; photos := None |}
  ∧ ¬ fullShape {| visited := None; date := Some "2024-05-01"; photos := None |}.
Proof.
  split; [reflexivity|].
  apply (updateDate_creates_date_only ∅ "FR" "2024-05-01"). reflexivity.
Defined.

End VisitStoreFacts.

(* ===================================================================== *)
(** * Properties of double precision *)
(* ===================================================================== *)

Section DoubleFacts.

Import JS.

Lemma two_pow_pos (e : Z) : (0 < 2 ^ e)%Q.
Proof. by apply Qpower_0_lt. Qed.

Lemma two_pow_add (a b : Z) : (2 ^ (a + b) == 2 ^ a * 2 ^ b)%Q.
Proof. by apply Qpower_plus. Qed.

Lemma two_pow_le (a b : Z) : a ≤ b → (2 ^ a <= 2 ^ b)%Q.
Proof. intros H. by apply Qpower_le_compat_l. Qed.

Lemma two_pow_inject (n : Z) : 0 ≤ n → (inject_Z (2 ^ n) == 2 ^ n)%Q.
Proof. intros H. by rewrite Zpower_Qpower. Qed.

Lemma roundHalfEven_near (x : Q) :
  (inject_Z (roundHalfEven x) - (1 # 2) <= x
   ∧ x <= inject_Z (roundHalfEven x) + (1 # 2))%Q.
Proof.
  pose proof (Qfloor_le x) as Hlo. pose proof (Qlt_floor x) as Hhi.
  rewrite inject_Z_plus in Hhi. change (inject_Z 1) with 1%Q in Hhi.
  unfold roundHalfEven.
  destruct (Qcompare_spec (x - inject_Z (Qfloor x)) (1 # 2)) as [Heq|Hlt|Hgt].
  - destruct (Z.even (Qfloor x)); rewrite ?inject_Z_plus;
      change (inject_Z 1) with 1%Q; split; lra.
  - split; lra.
  - rewrite inject_Z_plus. change (inject_Z 1) with 1%Q. split; lra.
Qed.

Lemma roundHalfEven_integer (x : Q) (n : Z) :
  (x == inject_Z n)%Q → roundHalfEven x = n.
Proof.
  intros Heq. unfold roundHalfEven.
  assert (Qfloor x = n) as -> by (rewrite (Qfloor_comp _ _ Heq); apply Qfloor_Z).
  destruct (Qcompare_spec (x - inject_Z n) (1 # 2)) as [H|H|H]; [lra|done|lra].
Qed.

Lemma roundHalfEven_mono (x y : Q) :
  (x <= y)%Q → roundHalfEven x ≤ roundHalfEven y.
Proof.
  intros Hxy.
  pose proof (Qfloor_resp_le _ _ Hxy) as Hfloor.
  pose proof (Qfloor_le x) as Hxlo. pose proof (Qlt_floor x) as Hxhi.
  pose proof (Qfloor_le y) as Hylo. pose proof (Qlt_floor y) as Hyhi.
  rewrite inject_Z_plus in Hxhi, Hyhi. change (inject_Z 1) with 1%Q in *.
  unfold roundHalfEven.
  destruct (decide (Qfloor x = Qfloor y)) as [Heq|Hne].
  - rewrite Heq in *.
    destruct (Qcompare_spec (x - inject_Z (Qfloor y)) (1 # 2));
      destruct (Qcompare_spec (y - inject_Z (Qfloor y)) (1 # 2));
      destruct (Z.even (Qfloor y)); try lia; lra.
  - assert (Qfloor x + 1 ≤ Qfloor y) by lia.
    destruct (Qcompare_spec (x - inject_Z (Qfloor x)) (1 # 2));
      destruct (Qcompare_spec (y - inject_Z (Qfloor y)) (1 # 2));
      destruct (Z.even (Qfloor x)); destruct (Z.even (Qfloor y)); lia.
Qed.

(** The binade of a positive number holds it. *)
Lemma binade_spec (x : Q) :
  (0 < x)%Q → (2 ^ binade x <= x ∧ x < 2 ^ (binade x + 1))%Q.
Proof.
  intros Hpos. destruct x as [n d].
  assert (0 < n) as Hn by (unfold Qlt in Hpos; simpl in Hpos; lia).
  unfold binade. cbn [Qnum Qden].
  set (a := Z.log2 n). set (b := Z.log2 (Z.pos d)).
  destruct (Z.log2_spec n Hn) as [Ha1 Ha2]. fold a in Ha1, Ha2.
  destruct (Z.log2_spec (Z.pos d) ltac:(lia)) as [Hb1 Hb2]. fold b in Hb1, Hb2.
  assert (0 ≤ a) as Ha0 by apply Z.log2_nonneg.
  assert (0 ≤ b) as Hb0 by apply Z.log2_nonneg.
  (* in the rationals *)
  assert (2 ^ a <= inject_Z n ∧ inject_Z n < 2 ^ (a + 1))%Q as [Qa1 Qa2].
  { rewrite <- !two_pow_inject by lia. rewrite <- Zle_Qle, <- Zlt_Qlt.
    replace (a + 1) with (Z.succ a) by lia. done. }
  assert (2 ^ b <= inject_Z (Z.pos d) ∧ inject_Z (Z.pos d) < 2 ^ (b + 1))%Q as [Qb1 Qb2].
  { rewrite <- !two_pow_inject by lia. rewrite <- Zle_Qle, <- Zlt_Qlt.
    replace (b + 1) with (Z.succ b) by lia. done. }
  assert (0 < inject_Z (Z.pos d))%Q as Hd by (by rewrite <- (Zlt_Qlt 0)).
  assert (n # d == inject_Z n / inject_Z (Z.pos d))%Q as Hx by apply Qmake_Qdiv.
  assert (n # d < 2 ^ (a - b + 1))%Q as Hupper.
  { rewrite Hx. apply Qlt_shift_div_r; [done|].
    apply Qlt_le_trans with (2 ^ (a + 1))%Q; [done|].
    replace (a + 1) with ((a - b + 1) + b) by lia. rewrite two_pow_add.
    apply Qmult_le_l; [apply two_pow_pos|done]. }
  assert (2 ^ (a - b - 1) < n # d)%Q as Hlower.
  { rewrite Hx. apply Qlt_shift_div_l; [done|].
    apply Qlt_le_trans with (2 ^ a)%Q; [|done].
    replace a with ((a - b - 1) + (b + 1)) at 2 by lia. rewrite two_pow_add.
    apply Qmult_lt_l; [apply two_pow_pos|done]. }
  destruct (Qle_bool (2 ^ (a - b)) (n # d)) eqn:Hle.
  - apply Qle_bool_iff in Hle. done.
  - split; [by apply Qlt_le_weak|].
    replace (a - b - 1 + 1) with (a - b) by lia.
    apply Qnot_le_lt. intros Hge. apply Qle_bool_iff in Hge. congruence.
Qed.

Lemma binade_ge (x : Q) (m : Z) : (2 ^ m <= x)%Q → m ≤ binade x.
Proof.
  intros Hm.
  assert (0 < x)%Q as Hpos by (eapply Qlt_le_trans; [apply (two_pow_pos m)|done]).
  destruct (binade_spec x Hpos) as [_ Hhi].
  assert (2 ^ m < 2 ^ (binade x + 1))%Q as Hlt by (eapply Qle_lt_trans; done).
  apply Qpower_lt_compat_l_inv in Hlt; [lia|done].
Qed.

Lemma binade_lt (x : Q) (m : Z) : (0 < x)%Q → (x < 2 ^ m)%Q → binade x < m.
Proof.
  intros Hpos Hm. destruct (binade_spec x Hpos) as [Hlo _].
  assert (2 ^ binade x < 2 ^ m)%Q as Hlt by (eapply Qle_lt_trans; done).
  by apply Qpower_lt_compat_l_inv in Hlt.
Qed.

Lemma binade_mono (x y : Q) : (0 < x)%Q → (x <= y)%Q → binade x ≤ binade y.
Proof.
  intros Hpos Hxy. apply binade_ge.
  destruct (binade_spec x Hpos) as [Hlo _]. by eapply Qle_trans.
Qed.

Lemma roundHalfEven_le (s : Q) (n : Z) : (s <= inject_Z n)%Q → roundHalfEven s ≤ n.
Proof.
  intros H. rewrite <- (roundHalfEven_integer (inject_Z n) n) by reflexivity.
  by apply roundHalfEven_mono.
Qed.

Lemma roundHalfEven_ge (s : Q) (n : Z) : (inject_Z n <= s)%Q → n ≤ roundHalfEven s.
Proof.
  intros H. rewrite <- (roundHalfEven_integer (inject_Z n) n) at 1 by reflexivity.
  by apply roundHalfEven_mono.
Qed.

Lemma nearest_unfold (x : Q) :
  nearest x
  = (inject_Z (roundHalfEven (x * 2 ^ (52 - exponentOf x))) * 2 ^ (exponentOf x - 52))%Q.
Proof. reflexivity. Qed.

Lemma scaled_back (x : Q) (e : Z) : (x * 2 ^ (52 - e) * 2 ^ (e - 52) == x)%Q.
Proof.
  rewrite <- Qmult_assoc, <- two_pow_add.
  replace (52 - e + (e - 52)) with 0 by lia. change (2 ^ 0)%Q with 1%Q. ring.
Qed.

(** The rounded number is within half a unit in the last place. *)
Lemma nearest_near (x : Q) :
  (nearest x - 2 ^ (exponentOf x - 53) <= x
   ∧ x <= nearest x + 2 ^ (exponentOf x - 53))%Q.
Proof.
  rewrite nearest_unfold. set (e := exponentOf x).
  destruct (roundHalfEven_near (x * 2 ^ (52 - e))) as [Hlo Hhi].
  set (r := inject_Z (roundHalfEven (x * 2 ^ (52 - e)))) in *.
  pose proof (two_pow_pos (e - 52)) as Hpos.
  assert (2 ^ (e - 53) == (1 # 2) * 2 ^ (e - 52))%Q as ->.
  { replace (e - 53) with (-1 + (e - 52)) by lia. by rewrite two_pow_add. }
  pose proof (scaled_back x e) as Hback.
  set (p := (2 ^ (e - 52))%Q) in *. set (s := (x * 2 ^ (52 - e))%Q) in *.
  split.
  - assert ((r - (1 # 2)) * p <= s * p)%Q by (apply Qmult_le_compat_r; [done|lra]).
    lra.
  - assert (s * p <= (r + (1 # 2)) * p)%Q by (apply Qmult_le_compat_r; [done|lra]).
    lra.
Qed.

Lemma exponentOf_normal (x : Q) : (2 ^ (-1022) <= x)%Q → exponentOf x = binade x.
Proof. intros H. apply binade_ge in H. unfold exponentOf. lia. Qed.

(** In the normal range the relative error is at most 2^-53. *)
Lemma nearest_relative (x : Q) :
  (2 ^ (-1022) <= x)%Q →
  (x * (1 - 2 ^ (-53)) <= nearest x ∧ nearest x <= x * (1 + 2 ^ (-53)))%Q.
Proof.
  intros Hnormal.
  assert (0 < x)%Q as Hpos by (eapply Qlt_le_trans; [apply (two_pow_pos (-1022))|done]).
  destruct (nearest_near x) as [Hlo Hhi].
  rewrite (exponentOf_normal x Hnormal) in Hlo, Hhi.
  destruct (binade_spec x Hpos) as [Hbin _].
  assert (2 ^ (binade x - 53) == 2 ^ binade x * 2 ^ (-53))%Q as Heq
    by (replace (binade x - 53) with (binade x + -53) by lia; apply two_pow_add).
  rewrite Heq in Hlo, Hhi.
  assert (2 ^ binade x * 2 ^ (-53) <= x * 2 ^ (-53))%Q as Hulp
    by (apply Qmult_le_compat_r; [done|by vm_compute]).
  set (u := (2 ^ (-53))%Q) in *. split; lra.
Qed.

Lemma nearest_le_pow (x : Q) (m : Z) :
  (0 < x)%Q → (x <= 2 ^ m)%Q → exponentOf x < m → (nearest x <= 2 ^ m)%Q.
Proof.
  intros Hpos Hx He. rewrite nearest_unfold. set (e := exponentOf x) in *.
  destruct (binade_spec x Hpos) as [_ Hbin].
  assert (x <= 2 ^ (e + 1))%Q as Hxe.
  { apply Qlt_le_weak. eapply Qlt_le_trans; [exact Hbin|].
    apply two_pow_le. unfold e, exponentOf. lia. }
  assert (roundHalfEven (x * 2 ^ (52 - e)) ≤ 2 ^ 53) as Hr.
  { apply roundHalfEven_le. rewrite two_pow_inject by lia.
    assert (2 ^ 53 == 2 ^ (e + 1) * 2 ^ (52 - e))%Q as ->
      by (rewrite <- two_pow_add; by replace (e + 1 + (52 - e)) with 53 by lia).
    apply Qmult_le_compat_r; [done|apply Qlt_le_weak, two_pow_pos]. }
  apply Qle_trans with (inject_Z (2 ^ 53) * 2 ^ (e - 52))%Q.
  - apply Qmult_le_compat_r; [by rewrite <- Zle_Qle|apply Qlt_le_weak, two_pow_pos].
  - rewrite two_pow_inject by lia. rewrite <- two_pow_add. apply two_pow_le. lia.
Qed.

Lemma nearest_ge_pow (x : Q) :
  (2 ^ (-1022) <= x)%Q → (2 ^ binade x <= nearest x)%Q.
Proof.
  intros Hnormal.
  assert (0 < x)%Q as Hpos by (eapply Qlt_le_trans; [apply (two_pow_pos (-1022))|done]).
  rewrite nearest_unfold, (exponentOf_normal x Hnormal). set (e := binade x).
  destruct (binade_spec x Hpos) as [Hbin _]. fold e in Hbin.
  assert (2 ^ 52 ≤ roundHalfEven (x * 2 ^ (52 - e))) as Hr.
  { apply roundHalfEven_ge. rewrite two_pow_inject by lia.
    assert (2 ^ 52 == 2 ^ e * 2 ^ (52 - e))%Q as ->
      by (rewrite <- two_pow_add; by replace (e + (52 - e)) with 52 by lia).
    apply Qmult_le_compat_r; [done|apply Qlt_le_weak, two_pow_pos]. }
  apply Qle_trans with (inject_Z (2 ^ 52) * 2 ^ (e - 52))%Q.
  - rewrite two_pow_inject by lia. rewrite <- two_pow_add.
    apply two_pow_le. lia.
  - apply Qmult_le_compat_r; [by rewrite <- Zle_Qle|apply Qlt_le_weak, two_pow_pos].
Qed.

Lemma nearest_nonneg (x : Q) : (0 <= x)%Q → (0 <= nearest x)%Q.
Proof.
  intros Hx. rewrite nearest_unfold.
  apply Qmult_le_0_compat; [|apply Qlt_le_weak, two_pow_pos].
  rewrite <- (Zle_Qle 0). apply roundHalfEven_ge.
  apply Qmult_le_0_compat; [done|apply Qlt_le_weak, two_pow_pos].
Qed.

Lemma nearest_mono (x y : Q) :
  (0 < x)%Q → (x <= y)%Q → (nearest x <= nearest y)%Q.
Proof.
  intros Hpos Hxy.
  assert (0 < y)%Q as Hypos by (by eapply Qlt_le_trans).
  pose proof (binade_mono x y Hpos Hxy) as Hbin.
  destruct (decide (exponentOf x = exponentOf y)) as [Heq|Hne].
  - rewrite !nearest_unfold, Heq.
    apply Qmult_le_compat_r; [|apply Qlt_le_weak, two_pow_pos].
    rewrite <- Zle_Qle. apply roundHalfEven_mono.
    apply Qmult_le_compat_r; [done|apply Qlt_le_weak, two_pow_pos].
  - assert (exponentOf x < exponentOf y ∧ exponentOf y = binade y) as [Hlt Hey]
      by (unfold exponentOf in *; lia).
    assert (2 ^ (-1022) <= y)%Q as Hnormal.
    { destruct (binade_spec y Hypos) as [Hlo _].
      eapply Qle_trans; [|exact Hlo]. apply two_pow_le. unfold exponentOf in *. lia. }
    apply Qle_trans with (2 ^ binade y)%Q; [|by apply nearest_ge_pow].
    apply nearest_le_pow; [done| |lia].
    destruct (binade_spec x Hpos) as [_ Hhi].
    apply Qlt_le_weak. eapply Qlt_le_trans; [exact Hhi|].
    apply two_pow_le. unfold exponentOf in *. lia.
Qed.

(** Whole numbers below 2^53 are doubles. *)
Lemma nearest_integer (x : Q) (n : Z) :
  (x == inject_Z n)%Q → 1 ≤ n < 2 ^ 53 → (nearest x == inject_Z n)%Q.
Proof.
  intros Heq [Hlo Hhi].
  assert (1 <= x)%Q as Hx1 by (rewrite Heq; by rewrite <- (Zle_Qle 1)).
  assert (0 < x)%Q as Hpos by lra.
  assert (0 ≤ binade x) as He0 by (by apply binade_ge).
  assert (binade x < 53) as He1.
  { apply binade_lt; [done|]. rewrite Heq, <- two_pow_inject by lia.
    by rewrite <- Zlt_Qlt. }
  rewrite nearest_unfold.
  assert (exponentOf x = binade x) as -> by (unfold exponentOf; lia).
  set (e := binade x) in *.
  rewrite (roundHalfEven_integer _ (n * 2 ^ (52 - e))).
  - rewrite inject_Z_mult, two_pow_inject by lia. rewrite <- Heq. apply scaled_back.
  - rewrite inject_Z_mult, two_pow_inject by lia. by rewrite Heq.
Qed.

Lemma double_positive (x : Q) : (0 < x)%Q → double x = nearest (Qred x).
Proof.
  intros Hpos. unfold double.
  assert (0 < Qred x)%Q as Hred by (by rewrite Qred_correct).
  destruct (Qred x) as [[|p|p] d]; try done.
Qed.

Lemma double_zero (x : Q) : (x == 0)%Q → double x = 0%Q.
Proof.
  intros Heq. unfold double.
  assert (Qred x == 0)%Q as Hred by (by rewrite Qred_correct).
  destruct (Qred x) as [[|p|p] d]; try done.
Qed.

Lemma double_comp (x y : Q) : (x == y)%Q → double x = double y.
Proof. intros Heq. unfold double. by rewrite (Qred_complete x y Heq). Qed.

Lemma double_nonneg (x : Q) : (0 <= x)%Q → (0 <= double x)%Q.
Proof.
  intros Hx. destruct (Qlt_le_dec 0 x) as [Hpos|Hle].
  - rewrite double_positive by done. apply nearest_nonneg. by rewrite Qred_correct.
  - rewrite double_zero; [done|]. by apply Qle_antisym.
Qed.

Lemma double_mono (x y : Q) : (0 <= x)%Q → (x <= y)%Q → (double x <= double y)%Q.
Proof.
  intros Hx Hxy. destruct (Qlt_le_dec 0 x) as [Hpos|Hle].
  - rewrite !double_positive by (try done; by eapply Qlt_le_trans).
    apply nearest_mono; by rewrite !Qred_correct.
  - rewrite (double_zero x) by (by apply Qle_antisym).
    apply double_nonneg. by eapply Qle_trans.
Qed.

Lemma double_integer (n : Z) : 0 ≤ n < 2 ^ 53 → (double (inject_Z n) == inject_Z n)%Q.
Proof.
  intros [Hlo Hhi]. destruct (decide (n = 0)) as [->|Hne]; [done|].
  rewrite double_positive by (rewrite <- (Zlt_Qlt 0); lia).
  apply nearest_integer; [apply Qred_correct|lia].
Qed.

Lemma double_relative (x : Q) :
  (2 ^ (-1022) <= x)%Q →
  (x * (1 - 2 ^ (-53)) <= double x ∧ double x <= x * (1 + 2 ^ (-53)))%Q.
Proof.
  intros Hnormal.
  assert (0 < x)%Q as Hpos by (eapply Qlt_le_trans; [apply (two_pow_pos (-1022))|done]).
  rewrite double_positive by done.
  destruct (nearest_relative (Qred x)) as [Hlo Hhi]; [by rewrite Qred_correct|].
  set (z := nearest (Qred x)) in *.
  rewrite Qred_correct in Hlo, Hhi. done.
Qed.

End DoubleFacts.

(* ===================================================================== *)
(** * Properties of the ImageCompressor *)
(* ===================================================================== *)

Section ImageCompressorFacts.

Import ImageCompressor PhotoUpload.

Lemma Math_round_inject_Z (n : Z) : JS.Math_round (inject_Z n) = n.
Proof.
  unfold JS.Math_round, Qfloor, Qplus, inject_Z. simpl.
  rewrite Z.mul_1_r.
  replace (n * 2 + 1) with (1 + n * 2) by lia.
  rewrite Z.div_add by lia. reflexivity.
Qed.

Lemma Math_round_mono (x y : Q) : (x <= y)%Q → JS.Math_round x ≤ JS.Math_round y.
Proof.
  intros Hxy. unfold JS.Math_round. apply Qfloor_resp_le.
  by apply Qplus_le_l.
Qed.

Lemma Math_round_eq (x : Q) (n : Z) : (x == inject_Z n)%Q → JS.Math_round x = n.
Proof.
  intros Heq. rewrite <- (Math_round_inject_Z n). unfold JS.Math_round.
  apply Qfloor_comp. by rewrite Heq.
Qed.

(** A number within a quarter of a whole number rounds to it at most,
    and at least. *)
Lemma Math_round_le (x : Q) (n : Z) : (x <= inject_Z n + (1 # 4))%Q → JS.Math_round x ≤ n.
Proof.
  intros Hle. unfold JS.Math_round.
  apply Z.le_trans with (Qfloor (inject_Z n + (3 # 4))).
  - apply Qfloor_resp_le. lra.
  - unfold Qfloor, Qplus, inject_Z. simpl. rewrite Z.mul_1_r.
    replace (n * 4 + 3) with (3 + n * 4) by lia.
    rewrite Z.div_add by lia. reflexivity.
Qed.

Lemma Math_round_ge (x : Q) (n : Z) : (inject_Z n - (1 # 4) <= x)%Q → n ≤ JS.Math_round x.
Proof.
  intros Hle. unfold JS.Math_round.
  apply Z.le_trans with (Qfloor (inject_Z n + (1 # 4))).
  - unfold Qfloor, Qplus, inject_Z. simpl. rewrite Z.mul_1_r.
    replace (n * 4 + 1) with (1 + n * 4) by lia.
    rewrite Z.div_add by lia. reflexivity.
  - apply Qfloor_resp_le. lra.
Qed.

(** Bounds between injected integers, from the integers. *)
Ltac inject_bounds :=
  repeat split; try change 1%Q with (inject_Z 1);
  rewrite <- ?Zle_Qle, <- ?Zlt_Qlt; unfold maxSide in *; lia.

(** Evaluates the powers of two of the statements, for [lra]. *)
Ltac eval_powers :=
  unfold roundOff, maxSide in *;
  repeat match goal with
    | |- context [Pos.pow ?a ?b] =>
        let v := eval vm_compute in (Pos.pow a b) in
        change (Pos.pow a b) with v in *
    | H : context [Pos.pow ?a ?b] |- _ =>
        let v := eval vm_compute in (Pos.pow a b) in
        change (Pos.pow a b) with v in *
    | |- context [inject_Z (Z.pow ?a ?b)] =>
        let v := eval vm_compute in (Z.pow a b) in
        change (inject_Z (Z.pow a b)) with (v # 1) in *
    | H : context [inject_Z (Z.pow ?a ?b)] |- _ =>
        let v := eval vm_compute in (Z.pow a b) in
        change (inject_Z (Z.pow a b)) with (v # 1) in *
    end.

Section Rounded.

Variable fl : Q → Q.
Hypothesis fl_rounds : roundsLikeDouble fl.

Variables width height maxSize : Z.
Hypothesis width_range : 1 ≤ width ≤ maxSide.
Hypothesis height_range : 1 ≤ height ≤ maxSide.
Hypothesis maxSize_range : 1 ≤ maxSize ≤ maxSide.

Let longest : Z := Z.max width height.
Let ratio : Q := (inject_Z maxSize / inject_Z longest)%Q.
Let scale : Q := Qmin 1 (fl ratio).

Lemma longest_range : (1 <= inject_Z longest <= inject_Z maxSide)%Q.
Proof using width_range height_range.
  unfold longest. inject_bounds.
Qed.

Lemma ratio_times_longest : (ratio * inject_Z longest == inject_Z maxSize)%Q.
Proof using width_range height_range.
  unfold ratio. rewrite Qmult_comm, Qmult_div_r; [reflexivity|].
  pose proof longest_range as [Hlo _]. intros Heq. rewrite Heq in Hlo.
  by apply Qle_not_lt in Hlo.
Qed.

Lemma ratio_range : ((1 # 2 ^ 64) <= ratio <= inject_Z (2 ^ 64))%Q.
Proof using All.
  pose proof longest_range as [Hlo Hhi].
  assert (1 <= inject_Z maxSize <= inject_Z maxSide)%Q as [Hmlo Hmhi]
    by inject_bounds.
  assert (0 < inject_Z longest)%Q as Hpos by lra.
  unfold ratio. split.
  - apply Qle_shift_div_l; [done|]. eval_powers. lra.
  - apply Qle_shift_div_r; [done|]. eval_powers. lra.
Qed.

Lemma rounded_scale_range : ((1 # 2 ^ 50) <= scale <= 1)%Q.
Proof using All.
  destruct (fl_rounds ratio ratio_range) as [Hlo _].
  pose proof longest_range as [Hl1 Hl2].
  assert (1 <= inject_Z maxSize)%Q as Hm by inject_bounds.
  assert ((1 # 2 ^ 49) <= ratio)%Q as Hratio.
  { unfold ratio. apply Qle_shift_div_l; [lra|]. eval_powers. lra. }
  unfold scale. split; [|apply Q.le_min_l].
  apply Q.min_glb; [by vm_compute|].
  apply Qle_trans with (ratio * (1 - roundOff))%Q; [|done].
  eval_powers. lra.
Qed.

Lemma scaled_side_range (side : Z) :
  1 ≤ side ≤ longest →
  ((1 # 2 ^ 64) <= inject_Z side * scale <= inject_Z (2 ^ 64))%Q.
Proof using All.
  intros [Hside1 Hside2].
  pose proof rounded_scale_range as [Hs1 Hs2].
  pose proof longest_range as [Hl1 Hl2].
  assert (1 <= inject_Z side <= inject_Z longest)%Q as [Hq1 Hq2]
    by inject_bounds.
  split.
  - apply Qle_trans with (1 * scale)%Q; [eval_powers; lra|].
    apply Qmult_le_compat_r; [done|]. eval_powers. lra.
  - apply Qle_trans with (inject_Z side * 1)%Q.
    + apply Qmult_le_l; [lra|done].
    + eval_powers. lra.
Qed.

Lemma rounded_side_le (side : Z) :
  1 ≤ side ≤ longest →
  (fl (inject_Z side * scale) <= inject_Z maxSize + (1 # 4))%Q.
Proof using All.
  intros [Hside1 Hside2].
  pose proof rounded_scale_range as [Hs1 Hs2].
  pose proof longest_range as [Hl1 Hl2].
  assert (1 <= inject_Z side <= inject_Z longest)%Q as [Hq1 Hq2]
    by inject_bounds.
  assert (inject_Z maxSize <= inject_Z maxSide)%Q as Hm
    by inject_bounds.
  destruct (fl_rounds ratio ratio_range) as [_ Hratio].
  assert (scale <= ratio * (1 + roundOff))%Q as Hscale
    by (unfold scale; eapply Qle_trans; [apply Q.le_min_r|done]).
  (* the exact product is at most maxSize * (1 + roundOff) *)
  assert (inject_Z side * scale <= inject_Z maxSize * (1 + roundOff))%Q as Hexact.
  { apply Qle_trans with (inject_Z longest * scale)%Q.
    - apply Qmult_le_compat_r; [done|]. eval_powers. lra.
    - apply Qle_trans with (inject_Z longest * (ratio * (1 + roundOff)))%Q.
      + apply Qmult_le_l; [lra|done].
      + rewrite Qmult_assoc, (Qmult_comm (inject_Z longest)), ratio_times_longest.
        apply Qle_refl. }
  destruct (fl_rounds _ (scaled_side_range side (conj Hside1 Hside2))) as [_ Hfl].
  apply Qle_trans with (inject_Z maxSize * (1 + roundOff) * (1 + roundOff))%Q.
  - eapply Qle_trans; [exact Hfl|].
    apply Qmult_le_compat_r; [done|by vm_compute].
  - clear -Hm. generalize dependent (inject_Z maxSize). intros q Hq.
    eval_powers. lra.
Qed.

(** A scaled side is not longer than the side. *)
Lemma rounded_side_le_side (side : Z) :
  1 ≤ side ≤ longest →
  (fl (inject_Z side * scale) <= inject_Z side + (1 # 4))%Q.
Proof using All.
  intros [Hside1 Hside2].
  pose proof rounded_scale_range as [Hs1 Hs2].
  pose proof longest_range as [Hl1 Hl2].
  assert (1 <= inject_Z side <= inject_Z longest)%Q as [Hq1 Hq2]
    by inject_bounds.
  destruct (fl_rounds _ (scaled_side_range side (conj Hside1 Hside2))) as [_ Hfl].
  assert (inject_Z side * scale <= inject_Z side)%Q as Hexact.
  { rewrite <- (Qmult_1_r (inject_Z side)) at 2. apply Qmult_le_l; [lra|done]. }
  apply Qle_trans with (inject_Z side * (1 + roundOff))%Q.
  - eapply Qle_trans; [exact Hfl|].
    apply Qmult_le_compat_r; [done|by vm_compute].
  - assert (inject_Z side <= inject_Z maxSide)%Q as Hbound by lra.
    clear -Hbound. generalize dependent (inject_Z side). intros q Hq.
    eval_powers. lra.
Qed.

(** The longest side of an image that does not fit is scaled to
    [maxSize], but for the rounding. *)
Lemma rounded_longest_ge :
  maxSize ≤ longest →
  (inject_Z maxSize - (1 # 4) <= fl (inject_Z longest * scale))%Q.
Proof using All.
  intros Hfit.
  pose proof rounded_scale_range as [Hs1 Hs2].
  pose proof longest_range as [Hl1 Hl2].
  assert (1 <= inject_Z maxSize <= inject_Z longest)%Q as [Hm1 Hm2]
    by inject_bounds.
  destruct (fl_rounds ratio ratio_range) as [Hratio _].
  assert (ratio <= 1)%Q as Hratio1.
  { unfold ratio. apply Qle_shift_div_r; [lra|]. lra. }
  assert (ratio * (1 - roundOff) <= scale)%Q as Hscale.
  { unfold scale. apply Q.min_glb; [|done].
    apply Qle_trans with ratio; [|done].
    assert (0 <= ratio)%Q by (unfold ratio; apply Qle_shift_div_l; lra).
    eval_powers. lra. }
  assert (inject_Z maxSize * (1 - roundOff) <= inject_Z longest * scale)%Q as Hexact.
  { apply Qle_trans with (inject_Z longest * (ratio * (1 - roundOff)))%Q.
    - rewrite Qmult_assoc, (Qmult_comm (inject_Z longest)), ratio_times_longest.
      apply Qle_refl.
    - apply Qmult_le_l; [lra|done]. }
  assert (1 ≤ longest ≤ longest) as Hside by (unfold longest; lia).
  destruct (fl_rounds _ (scaled_side_range longest Hside)) as [Hfl _].
  apply Qle_trans with (inject_Z maxSize * (1 - roundOff) * (1 - roundOff))%Q.
  - assert (0 <= inject_Z maxSize <= inject_Z maxSide)%Q as Hbound by lra.
    clear -Hbound. generalize dependent (inject_Z maxSize). intros q Hq.
    eval_powers. lra.
  - eapply Qle_trans; [|exact Hfl].
    apply Qmult_le_compat_r; [done|by vm_compute].
Qed.

Lemma rounded_target_side_range (side : Z) :
  1 ≤ side ≤ longest →
  1 ≤ Z.max 1 (JS.Math_round (fl (inject_Z side * scale))) ≤ Z.min side maxSize.
Proof using All.
  intros Hside. split; [lia|].
  apply Z.max_lub; [lia|]. apply Z.min_glb.
  - by apply Math_round_le, rounded_side_le_side.
  - by apply Math_round_le, rounded_side_le.
Qed.

End Rounded.

(** For every rounding of the quotient and of the two products that
    behaves like double precision, and for sides and bounds up to 2^49
    pixels: the canvas is within the bound and within the image, and
    the longest side of an image that does not fit becomes the bound. *)
Lemma targetSizeWith_bounds (fl : Q → Q) (width height maxSize : Z) :
  roundsLikeDouble fl →
  1 ≤ width ≤ maxSide → 1 ≤ height ≤ maxSide → 1 ≤ maxSize ≤ maxSide →
  let '(targetW, targetH) := targetSizeWith fl width height (inject_Z maxSize) in
  Z.max targetW targetH ≤ maxSize
  ∧ 1 ≤ targetW ≤ width ∧ 1 ≤ targetH ≤ height
  ∧ (maxSize ≤ Z.max width height → Z.max targetW targetH = maxSize).
Proof.
  intros Hfl Hw Hh Hm. unfold targetSizeWith.
  pose proof (rounded_target_side_range fl Hfl width height maxSize Hw Hh Hm width
                ltac:(lia)) as HW.
  pose proof (rounded_target_side_range fl Hfl width height maxSize Hw Hh Hm height
                ltac:(lia)) as HH.
  pose proof (λ Hlarge, Math_round_ge _ _
                (rounded_longest_ge fl Hfl width height maxSize Hw Hh Hm Hlarge)) as HL.
  cbv zeta in *.
  set (scale := Qmin 1 (fl (inject_Z maxSize / inject_Z (Z.max width height))%Q)) in *.
  destruct (Z.max_spec width height) as [[_ Hmax]|[_ Hmax]]; rewrite Hmax in HL;
    generalize dependent (JS.Math_round (fl (inject_Z width * scale)%Q));
    generalize dependent (JS.Math_round (fl (inject_Z height * scale)%Q));
    intros; lia.
Qed.

(** Double precision is such a rounding. *)
Lemma double_roundsLikeDouble : roundsLikeDouble JS.double.
Proof.
  intros x [Hlo Hhi].
  destruct (double_relative x) as [Hl Hh].
  - eapply Qle_trans; [|exact Hlo]. by vm_compute.
  - change (2 ^ (-53))%Q with roundOff in *. done.
Qed.

Lemma targetSizeWith_double (width height : Z) (maxSize : Q) :
  targetSizeWith JS.double width height maxSize = targetSize width height maxSize.
Proof. reflexivity. Qed.

(** An image that already fits is not scaled, whatever the bound. *)
Lemma targetSize_fits (width height maxSize : Z) :
  1 ≤ width ≤ maxSide → 1 ≤ height ≤ maxSide → Z.max width height ≤ maxSize →
  targetSize width height (inject_Z maxSize) = (width, height).
Proof.
  intros Hw Hh Hfit. unfold targetSize, scaleOf, JS.div, JS.mul.
  assert (Qmin 1 (JS.double (inject_Z maxSize / inject_Z (Z.max width height))) == 1)%Q
    as Hone.
  { apply Q.min_l.
    apply Qle_trans with (JS.double 1).
    - by rewrite (double_integer 1).
    - apply double_mono; [done|]. apply Qle_shift_div_l.
      + rewrite <- (Zlt_Qlt 0). lia.
      + rewrite Qmult_1_l, <- Zle_Qle. lia. }
  assert (∀ side, 1 ≤ side ≤ maxSide →
            JS.Math_round
              (JS.double
                 (inject_Z side
                  * Qmin 1 (JS.double (inject_Z maxSize / inject_Z (Z.max width height)))))
            = side) as Hround.
  { intros side Hside. apply Math_round_eq.
    rewrite (double_comp _ (inject_Z side)) by (by rewrite Hone, Qmult_1_r).
    apply double_integer. unfold maxSide in Hside. lia. }
  rewrite !Hround by done. f_equal; lia.
Qed.

(** The size of the canvas, for whole pixel counts: within the bound,
    within the image, and with its longest side at the bound when the
    image does not fit. *)
Lemma targetSize_range (width height maxSize : Z) :
  1 ≤ width ≤ maxSide → 1 ≤ height ≤ maxSide → 1 ≤ maxSize →
  let '(targetW, targetH) := targetSize width height (inject_Z maxSize) in
  Z.max targetW targetH ≤ maxSize
  ∧ 1 ≤ targetW ≤ width ∧ 1 ≤ targetH ≤ height
  ∧ (if Z.max width height <=? maxSize
     then (targetW, targetH) = (width, height)
     else Z.max targetW targetH = maxSize).
Proof.
  intros Hw Hh Hm.
  destruct (Z.max width height <=? maxSize) eqn:Hfit.
  - apply Z.leb_le in Hfit. rewrite targetSize_fits by done.
    repeat split; lia.
  - apply Z.leb_gt in Hfit.
    pose proof (targetSizeWith_bounds JS.double width height maxSize
                  double_roundsLikeDouble Hw Hh ltac:(lia)) as Hbounds.
    rewrite targetSizeWith_double in Hbounds.
    destruct (targetSize width height (inject_Z maxSize)) as [targetW targetH].
    destruct Hbounds as (? & ? & ? & Hexact). repeat split; try lia.
Qed.

(** What the promise of [compressImageToDataUrl] resolves to for a
    file that is read and decoded, with a 2d context. *)
Lemma compressImageToDataUrl_resolves (file : File) (width height : Z)
    (maxSize quality : Q) :
  is_Some (readerResult file) → decoded file = Some (width, height) →
  context2d file = true →
  compressImageToDataUrl file maxSize quality
  = Resolved (toDataURL file (fst (targetSize width height maxSize))
                (snd (targetSize width height maxSize)) quality).
Proof.
  intros [text Hread] Hdecoded Hcontext. unfold compressImageToDataUrl.
  rewrite Hread, Hdecoded, Hcontext.
  by destruct (targetSize width height maxSize).
Qed.

(** C5, as amended. For a file that is read and decoded to an image of
    [width] by [height] pixels, both between 1 and 2^49, and a whole
    bound [maxSize] of at least 1 pixel, [compressImageToDataUrl]
    resolves to the data URL of a canvas of
    max(1, round(width * scale)) by max(1, round(height * scale))
    pixels with scale = min(1, maxSize / max(width, height)), the
    quotient and the two products being doubles; the longer side of
    the canvas is at most [maxSize] and both sides are at least 1. *)
Theorem compressImageToDataUrl_size (file : File) (width height maxSize : Z)
    (quality : Q) :
  is_Some (readerResult file) → decoded file = Some (width, height) →
  context2d file = true →
  1 ≤ width ≤ maxSide → 1 ≤ height ≤ maxSide → 1 ≤ maxSize →
  let scale := Qmin 1 (JS.div (inject_Z maxSize) (inject_Z (Z.max width height))) in
  let targetW := Z.max 1 (JS.Math_round (JS.mul (inject_Z width) scale)) in
  let targetH := Z.max 1 (JS.Math_round (JS.mul (inject_Z height) scale)) in
  compressImageToDataUrl file (inject_Z maxSize) quality
  = Resolved (toDataURL file targetW targetH quality)
  ∧ Z.max targetW targetH ≤ maxSize
  ∧ 1 ≤ targetW ∧ 1 ≤ targetH.
Proof.
  intros Hread Hdecoded Hcontext Hw Hh Hm scale targetW targetH.
  split; [exact (compressImageToDataUrl_resolves file width height _ quality
                   Hread Hdecoded Hcontext)|].
  pose proof (targetSize_range width height maxSize Hw Hh Hm) as Hrange.
  change (targetSize width height (inject_Z maxSize)) with (targetW, targetH) in Hrange.
  cbv beta iota in Hrange. lia.
Qed.

Lemma compressImageToDataUrl_size_witness :
  1 ≤ 3712 ≤ maxSide ∧ 1 ≤ 2349 ≤ maxSide ∧ 1 ≤ 1600
  ∧ compressImageToDataUrl (Samples.picture 3712 2349) (inject_Z 1600) defaultQuality
    = Resolved "1600x1012"
  ∧ Z.max 1600 1012 ≤ 1600.
Proof.
  assert (1 ≤ 3712 ≤ maxSide) as Hw by (by vm_compute).
  assert (1 ≤ 2349 ≤ maxSide) as Hh by (by vm_compute).
  assert (1 ≤ 1600) as Hm by lia.
  split; [exact Hw|]. split; [exact Hh|]. split; [exact Hm|].
  destruct (compressImageToDataUrl_size (Samples.picture 3712 2349) 3712 2349 1600
              defaultQuality ltac:(by eexists) eq_refl eq_refl Hw Hh Hm)
    as (Hresolved & Hmax & _).
  split; [exact Hresolved | exact Hmax].
Defined.

(** C5, as stated, fails in two places. With a bound that is not a
    whole number the rounded side can pass it: an image of 3 by 1 at
    the bound 1.5 gets a canvas 2 pixels wide. And with sides near
    2^53 the rounding of the quotient is enough to pass a whole
    bound by one pixel. *)
Lemma compressImageToDataUrl_passes_bound :
  compressImageToDataUrl (Samples.picture 3 1) (3 # 2) defaultQuality = Resolved "2x1"
  ∧ ¬ (inject_Z 2 <= 3 # 2)%Q
  ∧ compressImageToDataUrl (Samples.picture 5096192487484842 1)
      (inject_Z 2866942164212812) defaultQuality
    = Resolved "2866942164212813x1"
  ∧ ¬ 2866942164212813 ≤ 2866942164212812.
Proof.
  split; [by vm_compute|]. split; [by vm_compute|].
  split; [by vm_compute|]. lia.
Qed.

End ImageCompressorFacts.

(* ===================================================================== *)
(** * Properties of JSON.parse and of the PersistenceGateway *)
(* ===================================================================== *)

Section JSONFacts.

Import JSON.

Lemma skip_ws_length cs : (length (skip_ws cs) ≤ length cs)%nat.
Proof. induction cs as [|c cs IH]; simpl; [lia|]. destruct (ws c); simpl; lia. Qed.

Lemma digits_length cs ds r : digits cs = (ds, r) → (length r ≤ length cs)%nat.
Proof.
  revert ds r. induction cs as [|c cs IH]; simpl; intros ds r Heq.
  - by simplify_eq.
  - destruct (digit c); [|by simplify_eq].
    destruct (digits cs) as [ds' r'] eqn:Hd. simplify_eq.
    specialize (IH _ _ eq_refl). simpl. lia.
Qed.

Lemma strip_length prefix cs r :
  strip prefix cs = Some r → (length r ≤ length cs)%nat.
Proof.
  revert cs. induction prefix as [|p prefix IH]; intros [|c cs] Heq;
    simpl in Heq; simplify_eq; try done.
  destruct (eqc p c); [|done]. apply IH in Heq. simpl. lia.
Qed.

Lemma string_body_length_upto (n : nat) cs s r :
  (length cs ≤ n)%nat → string_body cs = Some (s, r) → (length r < length cs)%nat.
Proof.
  revert cs s r. induction n as [|n IH]; intros [|c cs] s r Hn Heq;
    simpl in Hn, Heq; try done; try lia.
  repeat (case_match; simplify_option_eq; try done); simpl in *;
    match goal with
    | H : string_body ?x = Some (_, _) |- _ => apply IH in H; [simpl in *; lia|lia]
    | _ => lia
    end.
Qed.

Lemma string_body_length cs s r :
  string_body cs = Some (s, r) → (length r < length cs)%nat.
Proof. by apply (string_body_length_upto (length cs)). Qed.

Lemma number_length cs lexeme r :
  number cs = Some (lexeme, r) → (length r ≤ length cs)%nat.
Proof.
  unfold number, number_int, number_frac, number_exp, number_sign.
  intros Heq.
  repeat (case_match; simplify_option_eq; try done);
    repeat match goal with
      | H : digits _ = (_, _) |- _ => apply digits_length in H
      end; simpl in *; lia.
Qed.

(** Collects what is known of the lengths of the unread parts. *)
Ltac rest_lengths :=
  repeat match goal with
    | H : skip_ws ?x = _ |- _ =>
        apply (f_equal length) in H; pose proof (skip_ws_length x)
    | H : string_body _ = Some (_, _) |- _ => apply string_body_length in H
    | H : strip _ _ = Some _ |- _ => apply strip_length in H
    | H : number _ = Some (_, _) |- _ => apply number_length in H
    end.

Lemma parse_rest_length (fuel : nat) :
  ∀ cs,
    (∀ v r, parse_value fuel cs = POk v r → (length r ≤ length cs)%nat)
    ∧ (∀ acc v r, parse_elements fuel cs acc = POk v r → (length r ≤ length cs)%nat)
    ∧ (∀ acc v r, parse_members fuel cs acc = POk v r → (length r ≤ length cs)%nat).
Proof.
  induction fuel as [|fuel IH]; intros cs; [by split_and!|].
  split_and!; simpl; unfold literal; intros; 
    repeat (case_match; simplify_eq; try done);
    repeat match goal with
      | H : parse_value fuel ?x = POk _ _ |- _ => apply (IH x) in H
      | H : parse_elements fuel ?x _ = POk _ _ |- _ => apply (IH x) in H
      | H : parse_members fuel ?x _ = POk _ _ |- _ => apply (IH x) in H
      end;
    rest_lengths; simpl in *; lia.
Qed.

(** The fuel [JSON.parse] gives its parser is never used up: a
    rejected text is rejected for its syntax. *)
Lemma parse_fuel_enough (fuel : nat) :
  ∀ cs,
    ((2 * length cs + 1 ≤ fuel)%nat → parse_value fuel cs ≠ POutOfFuel)
    ∧ (∀ acc, (2 * length cs + 2 ≤ fuel)%nat → parse_elements fuel cs acc ≠ POutOfFuel)
    ∧ (∀ acc, (2 * length cs + 2 ≤ fuel)%nat → parse_members fuel cs acc ≠ POutOfFuel).
Proof.
  induction fuel as [|fuel IH]; intros cs; [split_and!; intros; lia|].
  split_and!; simpl; unfold literal; intros;
    repeat (case_match; simplify_eq; try done);
    repeat match goal with
      | H : parse_value fuel ?x = POk _ _ |- _ => apply (parse_rest_length fuel x) in H
      end;
    match goal with
    | |- parse_elements fuel ?x ?acc ≠ _ => apply (proj1 (proj2 (IH x)))
    | |- parse_members fuel ?x ?acc ≠ _ => apply (proj2 (proj2 (IH x)))
    | H : parse_value fuel ?x = POutOfFuel |- _ =>
        exfalso; refine (proj1 (IH x) _ H)
    end;
    rest_lengths; simpl in *; lia.
Qed.

Theorem parse_value_fuel cs : parse_value (fuel_for cs) cs ≠ POutOfFuel.
Proof. apply parse_fuel_enough. unfold fuel_for. lia. Qed.

(** [JSON.parse] rejects a text exactly when the grammar does. *)
Corollary parse_None (text : string) :
  parse text = None ↔
  let cs := list_ascii_of_string text in
  parse_value (fuel_for cs) cs = PSyntaxError
  ∨ ∃ v r, parse_value (fuel_for cs) cs = POk v r ∧ skip_ws r ≠ [].
Proof.
  unfold parse. cbv zeta.
  pose proof (parse_value_fuel (list_ascii_of_string text)) as Hfuel.
  destruct (parse_value _ _) as [v r| |]; [|split; [intros _; by left|done]|done].
  destruct (skip_ws r) eqn:Hws.
  - split; [done|]. intros [[=] | (v' & r' & [= <- <-] & Hne)].
    by rewrite Hws in Hne.
  - split; [|done]. intros _. right. exists v, r. by rewrite Hws.
Qed.

End JSONFacts.

Section PersistenceGatewayFacts.

Import PersistenceGateway.

Implicit Types (storage : Storage) (text : string).

(** C1, as stated, fails: with a stored text that is cut short, [load]
    throws the [SyntaxError] of [JSON.parse] to its caller. *)
Lemma load_truncated_throws :
  load {[ "wanderlust_data" := Samples.truncatedSnapshot ]} = ThrowsSyntaxError.
Proof. reflexivity. Qed.

(** A stored text can also be valid JSON and no snapshot: [load]
    returns what it parses to. *)
Lemma load_null_returns_null :
  load {[ "wanderlust_data" := "null" ]} = Returns JSON.Null.
Proof. reflexivity. Qed.

Lemma load_stored_snapshot :
  load {[ "wanderlust_data" := Samples.storedSnapshot ]}
  = Returns (JSON.Object
               [("FR", JSON.Object [("visited", JSON.Bool true);
                                    ("photos", JSON.Array [])])]).
Proof. reflexivity. Qed.

(** C1, as amended. [load] returns the empty snapshot when nothing is
    stored under the key and when the stored text is empty. For any
    other stored text it returns what [JSON.parse] makes of the text,
    and it throws [SyntaxError] when [JSON.parse] rejects the text. *)
Theorem load_outcome storage (c : ascii) text :
  load (delete "wanderlust_data" storage) = Returns emptySnapshot
  ∧ load (<["wanderlust_data" := EmptyString]> storage) = Returns emptySnapshot
  ∧ load (<["wanderlust_data" := String c text]> storage)
    = match JSON.parse (String c text) with
      | Some v => Returns v
      | None => ThrowsSyntaxError
      end.
Proof.
  unfold load, getItem.
  rewrite lookup_delete_eq, !lookup_insert_eq. done.
Qed.

End PersistenceGatewayFacts.

(* ===================================================================== *)
(** * Properties of the FlagFetcher *)
(* ===================================================================== *)

Section FlagFetcherFacts.

Import FlagFetcher.

Variable env : Env.

Implicit Types (w : World) (url : string) (evs : list Event).

Lemma emit_emitAll ev w : emit ev w = emitAll [ev] w.
Proof. reflexivity. Qed.

Lemma emitAll_emitAll evs1 evs2 w :
  emitAll evs2 (emitAll evs1 w) = emitAll (evs1 ++ evs2) w.
Proof. unfold emitAll. simpl. by rewrite app_assoc. Qed.

Lemma emitAll_nil w : emitAll [] w = w.
Proof. destruct w. unfold emitAll. simpl. by rewrite app_nil_r. Qed.

Lemma requestCount_app (t1 t2 : list Event) :
  requestCount (t1 ++ t2) = (requestCount t1 + requestCount t2)%nat.
Proof. unfold requestCount. by rewrite filter_app, length_app. Qed.

Lemma fetchJsonOnce_eq url w :
  fetchJsonOnce env url w
  = (jsonAttempt url (network env (requestCount (trace w)) url), emit (Fetch url) w).
Proof.
  unfold fetchJsonOnce, bind, fetchWithTimeout, jsonAttempt, res_json.
  destruct (network env _ url) as [res|m]; [|done].
  destruct (negb (ok res)); [done|]. by destruct (json res).
Qed.

Lemma download_eq url w :
  download env url w
  = (bytesAttempt url (network env (requestCount (trace w)) url), emit (Fetch url) w).
Proof.
  unfold download, bind, fetchWithTimeout, bytesAttempt, res_arrayBuffer.
  destruct (network env _ url) as [res|m]; [|done].
  destruct (negb (ok res)); [done|]. by destruct (arrayBuffer res).
Qed.

Lemma attempts_list : seqZ 1 RETRIES = [1; 2; 3].
Proof. reflexivity. Qed.

(** The request numbers of the second and third attempt: a wait is no
    request. *)
Lemma requestCount_next w url ms :
  requestCount (trace (emit (Sleep ms) (emit (Fetch url) w)))
  = S (requestCount (trace w)).
Proof. simpl. rewrite !requestCount_app. simpl. unfold requestCount at 2 3. simpl. lia. Qed.

(** The three rounds of the two loops, unrolled. *)
Lemma fetchJsonWithRetries_policy url w :
  fetchJsonWithRetries env url w
  = retryPolicy 500 url
      (jsonAttempt url (network env (requestCount (trace w)) url))
      (jsonAttempt url (network env (S (requestCount (trace w))) url))
      (jsonAttempt url (network env (S (S (requestCount (trace w)))) url)) w.
Proof.
  unfold fetchJsonWithRetries. rewrite attempts_list.
  simpl. unfold tryCatch, bind, sleep, perform, throw.
  rewrite fetchJsonOnce_eq.
  destruct (jsonAttempt url (network env _ url)) as [d1|e1]; [done|].
  rewrite fetchJsonOnce_eq, requestCount_next.
  destruct (jsonAttempt url (network env (S _) url)) as [d2|e2];
    [by rewrite !emit_emitAll, !emitAll_emitAll|].
  rewrite fetchJsonOnce_eq, requestCount_next, requestCount_next.
  destruct (jsonAttempt url (network env (S (S _)) url)) as [d3|e3];
    by rewrite !emit_emitAll, !emitAll_emitAll.
Qed.

Lemma downloadWithRetries_policy url w :
  downloadWithRetries env url w
  = retryPolicy 400 url
      (bytesAttempt url (network env (requestCount (trace w)) url))
      (bytesAttempt url (network env (S (requestCount (trace w))) url))
      (bytesAttempt url (network env (S (S (requestCount (trace w)))) url)) w.
Proof.
  unfold downloadWithRetries. rewrite attempts_list.
  simpl. unfold tryCatch, bind, sleep, perform, throw.
  rewrite download_eq.
  destruct (bytesAttempt url (network env _ url)) as [d1|e1]; [done|].
  rewrite download_eq, requestCount_next.
  destruct (bytesAttempt url (network env (S _) url)) as [d2|e2];
    [by rewrite !emit_emitAll, !emitAll_emitAll|].
  rewrite download_eq, requestCount_next, requestCount_next.
  destruct (bytesAttempt url (network env (S (S _)) url)) as [d3|e3];
    by rewrite !emit_emitAll, !emitAll_emitAll.
Qed.

(** The policy makes one to three requests. *)
Lemma retryPolicy_requests {A} (baseDelay : Z) url (a1 a2 a3 : result A) w :
  ∃ r evs,
    retryPolicy baseDelay url a1 a2 a3 w = (r, emitAll evs w)
    ∧ Forall (λ ev, ev = Fetch url ∨ ∃ ms, ev = Sleep ms) evs
    ∧ (1 ≤ requestCount evs ≤ 3)%nat.
Proof.
  unfold retryPolicy.
  repeat case_match; eexists _, _; (split; [reflexivity|]);
    (split; [repeat (apply Forall_cons; split; [by eauto|]); constructor
            | vm_compute; lia]).
Qed.

(** C8. [fetchJsonWithRetries] and [downloadWithRetries] follow the
    retry policy with the base delays of 500 ms and 400 ms: at most
    three requests, the k-th failed one followed by a wait of k times
    the base delay, the result of the first attempt that succeeds, and
    the error of the third attempt when all three fail. The attempts
    are the requests number n, n + 1 and n + 2 of the run, n being the
    number of requests made before the call. *)
Theorem retries_follow_policy url w :
  let n := requestCount (trace w) in
  fetchJsonWithRetries env url w
  = retryPolicy 500 url
      (jsonAttempt url (network env n url))
      (jsonAttempt url (network env (S n) url))
      (jsonAttempt url (network env (S (S n)) url)) w
  ∧ downloadWithRetries env url w
    = retryPolicy 400 url
        (bytesAttempt url (network env n url))
        (bytesAttempt url (network env (S n) url))
        (bytesAttempt url (network env (S (S n)) url)) w
  ∧ (requestCount (trace (snd (fetchJsonWithRetries env url w))) ≤ n + 3)%nat
  ∧ (requestCount (trace (snd (downloadWithRetries env url w))) ≤ n + 3)%nat.
Proof.
  intros n. subst n.
  rewrite fetchJsonWithRetries_policy, downloadWithRetries_policy.
  split; [done|]. split; [done|].
  split; match goal with
         | |- context [retryPolicy ?d url ?a1 ?a2 ?a3 w] =>
             destruct (retryPolicy_requests d url a1 a2 a3 w)
               as (r & evs & -> & _ & Hcount)
         end; simpl; rewrite requestCount_app; lia.
Qed.

(** The result of the policy is the result of one of the attempts. *)
Lemma retryPolicy_result {A} (baseDelay : Z) url (a1 a2 a3 : result A) w (x : A) :
  fst (retryPolicy baseDelay url a1 a2 a3 w) = Ok x →
  a1 = Ok x ∨ a2 = Ok x ∨ a3 = Ok x.
Proof. unfold retryPolicy. repeat case_match; simpl; intros [= <-]; eauto. Qed.

(** What a call of [fetchJsonWithRetries] leaves behind: requests for
    its URL and waits, one to three requests, and nothing else. What
    it returns is an answer of the network. *)
Lemma fetchJsonWithRetries_events url w :
  ∃ r evs,
    fetchJsonWithRetries env url w = (r, emitAll evs w)
    ∧ Forall (λ ev, ev = Fetch url ∨ ∃ ms, ev = Sleep ms) evs
    ∧ (1 ≤ requestCount evs ≤ 3)%nat
    ∧ (∀ data, r = Ok data → ∃ n, jsonAttempt url (network env n url) = Ok data).
Proof.
  rewrite fetchJsonWithRetries_policy.
  match goal with
  | |- context [retryPolicy ?d url ?a1 ?a2 ?a3 w] =>
      destruct (retryPolicy_requests d url a1 a2 a3 w) as (r & evs & Heq & Hevs & Hcount);
      pose proof (retryPolicy_result d url a1 a2 a3 w) as Hresult
  end.
  rewrite Heq in Hresult |- *. exists r, evs. repeat split; try done; try lia.
  intros data ->. destruct (Hresult data eq_refl) as [H|[H|H]]; eauto.
Qed.

Lemma metadataEvent_mono (chunks chunks' : list (list string)) ev :
  chunks ⊆ chunks' → metadataEvent chunks ev → metadataEvent chunks' ev.
Proof. intros Hsub. destruct ev; simpl; naive_solver. Qed.

(** A readable answer is read without a [TypeError]. *)
Lemma addItem_readable (map : gmap string JS.Value) (item : JS.Value) :
  readableItem item = true → ∃ map', addItem map item = Ok map'.
Proof.
  unfold readableItem, addItem.
  destruct (truthy (JS.get "cca2" item)) as [code|]; [|by eauto].
  destruct (truthy (JS.get "flags" item ≫= JS.get "svg")) as [svg|]; [|by destruct code; eauto].
  destruct code; try done. by eauto.
Qed.

Lemma addItems_readable (items : list JS.Value) :
  forallb readableItem items = true →
  ∀ map : gmap string JS.Value, ∃ map', addItems map items = Ok map'.
Proof.
  induction items as [|item items IH]; intros Hall map; simpl; [by eauto|].
  simpl in Hall. apply andb_prop in Hall as [Hitem Hall].
  destruct (addItem_readable map item Hitem) as [map1 ->]. by apply IH.
Qed.

Lemma addAnswer_readable (map : gmap string JS.Value) (data : JS.Value) :
  readable data = true → ∃ map', addAnswer map data = Ok map'.
Proof.
  unfold readable, addAnswer. destruct (iterate data) as [items|e]; [|done].
  intros Hall. by apply addItems_readable.
Qed.

(** The metadata phase leaves the files and the exit code alone, and
    its events are those of the chunks: at most three requests for
    each. When it returns it has made a request for each chunk, and it
    returns when the answers are readable. *)
Lemma resolveChunks_events (chunks : list (list string)) :
  ∀ (map : gmap string JS.Value) w,
  ∃ r evs,
    resolveChunks env chunks map w = (r, emitAll evs w)
    ∧ Forall (metadataEvent chunks) evs
    ∧ (requestCount evs ≤ 3 * length chunks)%nat
    ∧ (∀ map', r = Ok map' → (length chunks ≤ requestCount evs)%nat)
    ∧ (answersReadable env → ∃ map', r = Ok map').
Proof.
  induction chunks as [|part later IH]; intros map w.
  - exists (Ok map), []. rewrite emitAll_nil. split; [done|]. split; [done|].
    unfold requestCount. simpl. split; [lia|]. split; [intros; lia|by eauto].
  - simpl. unfold bind at 1, tryCatch, bind at 1.
    destruct (fetchJsonWithRetries_events (chunkUrl part) w)
      as (r & evs1 & -> & Hevs1 & Hcount1 & Hanswer).
    assert (Forall (metadataEvent (part :: later)) evs1) as Hmeta1.
    { eapply Forall_impl; [exact Hevs1|]. intros ev [-> | [ms ->]]; simpl; [|done].
      exists part. split; [apply list_elem_of_here|done]. }
    destruct r as [data|e].
    + unfold ret at 1, bind at 1, settle.
      destruct (addAnswer map data) as [map1|e] eqn:Hread.
      * destruct (IH map1 (emitAll evs1 w))
          as (r & evs2 & -> & Hevs2 & Hcount2 & Hok2 & Hreadable2).
        exists r, (evs1 ++ evs2). rewrite emitAll_emitAll.
        split; [done|]. split; [|split; [|split]].
        -- apply Forall_app. split; [done|].
           eapply Forall_impl; [exact Hevs2|]. intros ev.
           apply metadataEvent_mono. set_solver.
        -- rewrite requestCount_app. simpl. lia.
        -- intros map' Hr. specialize (Hok2 map' Hr).
           rewrite requestCount_app. simpl. lia.
        -- done.
      * exists (Throw e), evs1.
        split; [done|]. split; [done|]. split; [simpl; lia|].
        split; [done|].
        intros Hreadable. destruct (Hanswer data eq_refl) as [n Hn].
        destruct (addAnswer_readable map data (Hreadable _ _ _ Hn)) as [map' Hmap'].
        congruence.
    + unfold bind at 1, perform, ret at 1.
      rewrite emit_emitAll, emitAll_emitAll.
      destruct (IH map (emitAll (evs1 ++ [chunkFailure part e]) w))
        as (r & evs2 & -> & Hevs2 & Hcount2 & Hok2 & Hreadable2).
      exists r, ((evs1 ++ [chunkFailure part e]) ++ evs2).
      rewrite emitAll_emitAll.
      assert (requestCount ((evs1 ++ [chunkFailure part e]) ++ evs2)
              = (requestCount evs1 + requestCount evs2)%nat) as Hcount.
      { rewrite !requestCount_app.
        change (requestCount [chunkFailure part e]) with 0%nat. lia. }
      split; [done|]. split; [|split; [|split]].
      * apply Forall_app. split.
        -- apply Forall_app. split; [done|]. constructor; [|done].
           simpl. exists part, e. split; [apply list_elem_of_here|done].
        -- eapply Forall_impl; [exact Hevs2|]. intros ev.
           apply metadataEvent_mono. set_solver.
      * rewrite Hcount. simpl. lia.
      * intros map' Hr. specialize (Hok2 map' Hr). rewrite Hcount. simpl. lia.
      * done.
Qed.

Lemma getFlagUrlByCode_events (codes : list string) w :
  ∃ r evs,
    getFlagUrlByCode env codes w = (r, emitAll evs w)
    ∧ Forall (metadataEvent (chunk codes CODES_PER_CHUNK)) evs
    ∧ (requestCount evs ≤ 3 * length (chunk codes CODES_PER_CHUNK))%nat
    ∧ (∀ map, r = Ok map →
         (length (chunk codes CODES_PER_CHUNK) ≤ requestCount evs)%nat)
    ∧ (answersReadable env → ∃ map, r = Ok map).
Proof. apply resolveChunks_events. Qed.

(** The chunks are the array cut into pieces of [size] elements, the
    last one possibly shorter. *)
Lemma ceil_div_step (n size : nat) :
  (0 < size)%nat → (0 < n)%nat →
  ((n + size - 1) / size = S ((n - size + size - 1) / size))%nat.
Proof.
  intros Hsize Hn. destruct (decide (size ≤ n)%nat) as [Hge|Hlt].
  - replace (n + size - 1)%nat with (n - size + size - 1 + 1 * size)%nat by lia.
    rewrite Nat.div_add by lia. lia.
  - replace (n - size + size - 1)%nat with (size - 1)%nat by lia.
    replace (n + size - 1)%nat with (n - 1 + 1 * size)%nat by lia.
    rewrite Nat.div_add by lia. rewrite !Nat.div_small by lia. lia.
Qed.

Lemma chunkFrom_spec {A} (size : nat) :
  (0 < size)%nat →
  ∀ (fuel : nat) (arr : list A),
    (length arr ≤ fuel)%nat →
    concat (chunkFrom fuel arr size) = arr
    ∧ Forall (λ part, (1 ≤ length part ≤ size)%nat) (chunkFrom fuel arr size)
    ∧ length (chunkFrom fuel arr size) = ((length arr + size - 1) / size)%nat.
Proof.
  intros Hsize. induction fuel as [|fuel IH]; intros [|x arr] Hlen;
    simpl in Hlen; try lia.
  - simpl. repeat split; [constructor|].
    symmetry. apply Nat.div_small. lia.
  - simpl. repeat split; [constructor|].
    symmetry. apply Nat.div_small. lia.
  - remember (x :: arr) as l eqn:Hl.
    assert (0 < length l ≤ S fuel)%nat as Hpos by (subst l; simpl; lia).
    destruct (IH (drop size l)) as (Hconcat & Hparts & Hcount).
    { rewrite length_drop. lia. }
    assert (chunkFrom (S fuel) l size = take size l :: chunkFrom fuel (drop size l) size)
      as -> by (by subst l).
    split; [|split].
    + simpl. by rewrite Hconcat, take_drop.
    + constructor; [|done]. rewrite length_take. lia.
    + simpl. rewrite Hcount, length_drop. symmetry. apply ceil_div_step; lia.
Qed.

Lemma chunk_codes (codes : list string) :
  concat (chunk codes CODES_PER_CHUNK) = codes
  ∧ Forall (λ part, (1 ≤ length part ≤ 25)%nat) (chunk codes CODES_PER_CHUNK)
  ∧ length (chunk codes CODES_PER_CHUNK) = ((length codes + 24) / 25)%nat.
Proof.
  unfold chunk. change (Z.to_nat CODES_PER_CHUNK) with 25%nat.
  destruct (chunkFrom_spec (A := string) 25 ltac:(lia) (length codes) codes (le_n _))
    as (? & ? & Hcount).
  repeat split; try done. rewrite Hcount. f_equal. lia.
Qed.


(** A run whose [mkdir] is refused ends there, with nothing done. *)
Lemma run_mkdir_refused (codes : list string) w (m : string) :
  mkdirRefusal env (OUTPUT_DIR env) w = Some m →
  run env codes w = (Throw (FsError m), w).
Proof. intros Hdisk. unfold run, bind at 1, mkdir. by rewrite Hdisk. Qed.

(** A run whose metadata phase throws prints the three lines of the
    [catch] in [main], sets the exit code 1 and ends there. *)
Lemma run_aborted (codes : list string) w (e : Err) evs :
  mkdirAccepted env w →
  getFlagUrlByCode env codes (emit (Mkdir (OUTPUT_DIR env)) w)
  = (Throw e, emitAll evs (emit (Mkdir (OUTPUT_DIR env)) w)) →
  run env codes w
  = (Ok tt,
     mkWorld (files w) (trace w ++ Mkdir (OUTPUT_DIR env) :: evs ++ abortEvents e)
       (Some 1)).
Proof.
  intros Hdisk Hresolve. unfold mkdirAccepted in Hdisk.
  unfold run, bind at 1, mkdir. rewrite Hdisk.
  unfold bind at 1, tryCatch, bind at 1. rewrite Hresolve.
  unfold bind, console_error, perform, setExitCode, ret, emit, emitAll, abortEvents.
  simpl. by rewrite <- !app_assoc.
Qed.

(** A run whose metadata phase returns goes on to the download loop
    and the summary. *)
Lemma run_resolved (codes : list string) w (flagUrlByCode : gmap string JS.Value) w1 :
  mkdirAccepted env w →
  getFlagUrlByCode env codes (emit (Mkdir (OUTPUT_DIR env)) w) = (Ok flagUrlByCode, w1) →
  run env codes w
  = (let* '(ok, failed) := downloadEach env flagUrlByCode codes 0 0 in
     let* _ := console_log [doneLine env ok failed] in
     if (0 <? failed)%nat then setExitCode 1 else ret tt) w1.
Proof.
  intros Hdisk Hresolve. unfold mkdirAccepted in Hdisk.
  unfold run, bind at 1, mkdir. rewrite Hdisk.
  unfold bind at 1, tryCatch, bind at 1. by rewrite Hresolve.
Qed.


(** With the metadata endpoint out of reach, every chunk is reported
    and skipped, and no URL is resolved. *)
Lemma resolveChunks_unreachable (chunks : list (list string)) :
  metadataUnreachable env →
  ∀ (map : gmap string JS.Value) w,
  ∃ evs,
    resolveChunks env chunks map w = (Ok map, emitAll evs w)
    ∧ Forall (metadataEvent chunks) evs.
Proof.
  intros Hdown. induction chunks as [|part later IH]; intros map w.
  - exists []. by rewrite emitAll_nil.
  - simpl. unfold bind at 1, tryCatch, bind at 1.
    rewrite fetchJsonWithRetries_policy.
    destruct (Hdown (requestCount (trace w)) (chunkUrl part)) as [e1 ->].
    destruct (Hdown (S (requestCount (trace w))) (chunkUrl part)) as [e2 ->].
    destruct (Hdown (S (S (requestCount (trace w)))) (chunkUrl part)) as [e3 ->].
    unfold retryPolicy, bind at 1, perform, ret at 1.
    rewrite emit_emitAll, emitAll_emitAll.
    match goal with
    | |- context [resolveChunks env later map (emitAll ?evs1 w)] =>
        destruct (IH map (emitAll evs1 w)) as (evs2 & -> & Hevs2);
        exists (evs1 ++ evs2)
    end.
    rewrite emitAll_emitAll. split; [done|].
    apply Forall_app. split.
    + repeat (apply Forall_cons; split;
                [simpl;
                 first [ done
                       | by exists part; split; [apply list_elem_of_here|]
                       | by exists part, e3; split; [apply list_elem_of_here|] ]|]).
      constructor.
    + eapply Forall_impl; [exact Hevs2|]. intros ev.
      apply metadataEvent_mono. set_solver.
Qed.

(** Without a resolved URL and without its file, a code is counted as
    failed and gets its own line. *)
Lemma downloadEach_no_urls (codes : list string) :
  ∀ (ok failed : nat) w,
    nonePresent env codes w →
    downloadEach env ∅ codes ok failed w
    = (Ok (ok, (failed + length codes)%nat), emitAll (map noUrlLine codes) w).
Proof.
  induction codes as [|code later IH]; intros ok failed w Hnone; simpl.
  - unfold ret. by rewrite Nat.add_0_r, emitAll_nil.
  - apply Forall_cons in Hnone as [Hcode Hnone].
    unfold bind at 1, tryCatch, bind at 1, access. rewrite Hcode.
    unfold ret at 1. rewrite lookup_empty. simpl.
    unfold bind at 1, console_error, perform.
    rewrite IH by done. rewrite emit_emitAll, emitAll_emitAll.
    do 3 f_equal. lia.
Qed.

(** What a run does when no metadata lookup succeeds and no flag file
    is there: it does not stop after the metadata phase; it goes
    through the codes, prints a line for each, and ends with the
    summary and, unless there is no code at all, with exit code 1. The
    [catch] of [main] is not entered. *)
Lemma run_unreachable (codes : list string) w :
  metadataUnreachable env →
  nonePresent env codes w →
  mkdirAccepted env w →
  ∃ evs,
    run env codes w
    = (Ok tt,
       mkWorld (files w)
         (trace w ++ Mkdir (OUTPUT_DIR env) :: evs ++ map noUrlLine codes
            ++ [ConsoleLog [doneLine env 0 (length codes)]])
         (if (0 <? length codes)%nat then Some 1 else exitCode w))
    ∧ Forall (metadataEvent (chunk codes CODES_PER_CHUNK)) evs.
Proof.
  intros Hdown Hnone Hdisk.
  destruct (resolveChunks_unreachable (chunk codes CODES_PER_CHUNK) Hdown ∅
              (emit (Mkdir (OUTPUT_DIR env)) w)) as (evs & Hresolve & Hevs).
  exists evs. split; [|done].
  rewrite (run_resolved codes w ∅ _ Hdisk Hresolve).
  unfold bind at 1. rewrite downloadEach_no_urls by done.
  unfold bind at 1, console_log, perform. simpl.
  destruct (0 <? length codes)%nat; unfold setExitCode, ret, emitAll, emit; simpl;
    by rewrite <- !app_assoc.
Qed.

End FlagFetcherFacts.

Section FlagFetcherRuns.

Import FlagFetcher.

Lemma sample_codes :
  getCountryCodesFromConstants Samples.constants = ["FR"; "JP"; "US"].
Proof. reflexivity. Qed.

Lemma populated_allPresent :
  allPresent Samples.reachable ["FR"; "JP"; "US"] Samples.populated.
Proof. repeat (apply Forall_cons; split; [by eexists|]). constructor. Qed.




(** Nor does every such run report success. With all three flag files
    there and an answer that is a JSON object where the array is
    expected, the reading of the answer throws outside the [try] of
    [getFlagUrlByCode]: the [catch] of [main] prints its diagnostic
    and the run ends with exit code 1, without the summary. *)
Lemma populated_run_aborts_on_misshapen_answer :
  allPresent Samples.misshapen
    (getCountryCodesFromConstants Samples.constants) Samples.populated
  ∧ main Samples.misshapen Samples.populated
    = (Ok tt,
       mkWorld (files Samples.populated)
         [Mkdir "/repo/public/flags";
          Fetch "https://restcountries.com/v3.1/alpha?codes=FR%2CJP%2CUS&fields=cca2,flags";
          ConsoleError ["Failed to load flag URLs from restcountries.com."];
          ConsoleError ["Check your internet/VPN/firewall and try again."];
          ConsoleError ["data is not iterable"]]
         (Some 1)).
Proof.
  split; [rewrite sample_codes; exact populated_allPresent|]. reflexivity.
Qed.

(** And when the [mkdir] is refused, the run ends there with an
    unhandled rejection: on a disk that cannot be written, and where a
    regular file stands in the place of the directory [public]. *)
Lemma run_stops_at_refused_mkdir :
  main Samples.readOnly Samples.populated
  = (Throw (FsError "EROFS: read-only file system"), Samples.populated)
  ∧ exitStatus (main Samples.readOnly Samples.populated) = 1
  ∧ main Samples.reachable Samples.blocked
    = (Throw (FsError "ENOTDIR: not a directory, mkdir '/repo/public/flags'"),
       Samples.blocked)
  ∧ exitStatus (main Samples.reachable Samples.blocked) = 1.
Proof. repeat split; reflexivity. Qed.

Lemma unreachable_metadataUnreachable : metadataUnreachable Samples.unreachable.
Proof. intros n url. by eexists. Qed.

(** C2 on a run where it matters: the network refuses every request
    and no flag file is there. Every metadata lookup fails after its
    three attempts, and the run goes on to the download loop: it
    prints one line for each code and the summary, and sets the exit
    code 1. The diagnostic of the [catch] in [main] is not printed. *)
Theorem unreachable_run_reports_each_code :
  main Samples.unreachable Samples.freshCheckout
  = (Ok tt,
     mkWorld (files Samples.freshCheckout)
       [Mkdir "/repo/public/flags";
        Fetch "https://restcountries.com/v3.1/alpha?codes=FR%2CJP%2CUS&fields=cca2,flags";
        Sleep 500;
        Fetch "https://restcountries.com/v3.1/alpha?codes=FR%2CJP%2CUS&fields=cca2,flags";
        Sleep 1000;
        Fetch "https://restcountries.com/v3.1/alpha?codes=FR%2CJP%2CUS&fields=cca2,flags";
        Sleep 1500;
        ConsoleError ["Failed to load chunk from restcountries (FR, JP, US):";
                      "fetch failed"];
        ConsoleError ["Failed FR: no flag URL from restcountries"];
        ConsoleError ["Failed JP: no flag URL from restcountries"];
        ConsoleError ["Failed US: no flag URL from restcountries"];
        ConsoleLog ["Done. Saved/exists: 0. Failed: 3. Output: /repo/public/flags"]]
       (Some 1))
  ∧ Forall (λ ev, ev ≠ ConsoleError [abortLine])
      (trace (snd (main Samples.unreachable Samples.freshCheckout))).
Proof.
  split; [reflexivity|].
  change (trace (snd (main Samples.unreachable Samples.freshCheckout)))
    with (trace (snd (run Samples.unreachable ["FR"; "JP"; "US"] Samples.freshCheckout))).
  destruct (run_unreachable Samples.unreachable ["FR"; "JP"; "US"] Samples.freshCheckout)
    as (evs & -> & Hevs).
  - apply unreachable_metadataUnreachable.
  - by repeat constructor.
  - reflexivity.
  - simpl. apply Forall_cons. split; [discriminate|].
    apply Forall_app. split.
    + eapply Forall_impl; [exact Hevs|].
      intros [] Hev; try discriminate. destruct Hev as (part & e & _ & ->).
      discriminate.
    + repeat (apply Forall_cons; split; [discriminate|]). constructor.
Qed.

End FlagFetcherRuns.

(* ===================================================================== *)
(** * More on the VisitStore *)
(* ===================================================================== *)

Section VisitStoreMore.

Import VisitStore VisitStats.

Implicit Types (prev : UserData) (code c : string) (index : Z).

Lemma splice_in_bounds {A} (l : list A) (start : Z) :
  0 ≤ start < Z.of_nat (length l) →
  JS.splice l start 1 = delete (Z.to_nat start) l.
Proof.
  intros [Hlo Hhi]. unfold JS.splice, JS.splice_start.
  destruct (start <? 0) eqn:Hneg; [apply Z.ltb_lt in Hneg; lia|].
  rewrite Z.min_l by lia.
  replace (Z.min (Z.max 1 0) _) with 1 by lia.
  rewrite delete_take_drop. do 2 f_equal. lia.
Qed.

(** X1. With an index inside the photo sequence of [code],
    [removePhoto] removes the photo at that index and no other: the
    sequence is the old one without its element number [index], one
    shorter; the visited flag, the date and all other records stay. *)
Theorem removePhoto_in_bounds prev code index :
  0 ≤ index < Z.of_nat (length (photosOf prev code)) →
  photosOf (removePhoto code index prev) code
  = delete (Z.to_nat index) (photosOf prev code)
  ∧ S (length (photosOf (removePhoto code index prev) code))
    = length (photosOf prev code)
  ∧ visitedOf (removePhoto code index prev) code = visitedOf prev code
  ∧ dateOf (removePhoto code index prev) code = dateOf prev code
  ∧ ∀ c, c ≠ code → removePhoto code index prev !! c = prev !! c.
Proof.
  intros Hin.
  assert (photosOf (removePhoto code index prev) code
          = delete (Z.to_nat index) (photosOf prev code)) as Hphotos.
  { unfold removePhoto. rewrite photosOf_insert, decide_True by done. simpl.
    by apply splice_in_bounds. }
  split; [done|]. split.
  - rewrite Hphotos, length_delete; [lia|].
    apply lookup_lt_is_Some. lia.
  - apply removePhoto_keeps.
Qed.

Lemma removePhoto_in_bounds_witness :
  0 ≤ 0 < Z.of_nat (length (photosOf Samples.twoPhotos "FR"))
  ∧ photosOf (removePhoto "FR" 0 Samples.twoPhotos) "FR" = ["b"].
Proof.
  assert (0 ≤ 0 < Z.of_nat (length (photosOf Samples.twoPhotos "FR"))) as Hin
    by (vm_compute; split; [discriminate|reflexivity]).
  split; [exact Hin|].
  exact (proj1 (removePhoto_in_bounds Samples.twoPhotos "FR" 0 Hin)).
Defined.

(** X2. Adding images and then removing the photo at the index where
    the first of them went gives the old photo sequence followed by the
    other new images; with a single image the old sequence is back. *)
Theorem addPhotos_removePhoto prev code (p : string) (ps : list string) :
  photosOf
    (removePhoto code (Z.of_nat (length (photosOf prev code)))
       (addPhotos code (p :: ps) prev)) code
  = photosOf prev code ++ ps.
Proof.
  unfold removePhoto. rewrite photosOf_insert, decide_True by done. simpl.
  assert (photosOf (addPhotos code (p :: ps) prev) code = photosOf prev code ++ p :: ps)
    as ->.
  { unfold addPhotos, currentOr, photosOf. simpl. rewrite lookup_insert_eq. simpl.
    by destruct (prev !! code). }
  rewrite splice_in_bounds by (rewrite length_app; simpl; lia).
  rewrite Nat2Z.id, delete_take_drop, take_app_length.
  f_equal.
  change (photosOf prev code ++ p :: ps) with (photosOf prev code ++ [p] ++ ps).
  rewrite app_assoc. apply drop_app_length'. rewrite length_app. simpl. lia.
Qed.

(** X3. [updateDate] sets the date of [code] and nothing else, and the
    last date set is the one that stays: setting a date over another
    gives the same snapshot as setting it directly. *)
Theorem updateDate_last_write_wins prev code (d1 d2 : string) :
  updateDate code d2 (updateDate code d1 prev) = updateDate code d2 prev
  ∧ dateOf (updateDate code d2 prev) code = Some d2
  ∧ visitedOf (updateDate code d2 prev) code = visitedOf prev code
  ∧ photosOf (updateDate code d2 prev) code = photosOf prev code
  ∧ ∀ c, c ≠ code → updateDate code d2 prev !! c = prev !! c.
Proof.
  unfold updateDate, dateOf, visitedOf, photosOf.
  rewrite !lookup_insert_eq, insert_insert_eq. simpl.
  repeat split; try by destruct (prev !! code).
  intros c Hc. by rewrite lookup_insert_ne.
Qed.

(** An updater changes the record of its own code only, and what it
    puts there depends on that record only. *)
Lemma act_lookup_ne (a : action) code c prev :
  c ≠ code → act a code prev !! c = prev !! c.
Proof.
  intros Hc. destruct a; simpl;
    unfold toggleVisit, updateDate, addPhotos, removePhoto;
    try case_match; by rewrite ?lookup_insert_ne.
Qed.

Lemma act_lookup_eq (a : action) code prev prev' :
  prev !! code = prev' !! code →
  act a code prev !! code = act a code prev' !! code.
Proof.
  intros Heq. destruct a; simpl;
    unfold toggleVisit, updateDate, addPhotos, removePhoto, currentOr,
      visitedOf, photosOf;
    try case_match; rewrite ?lookup_insert_eq, ?Heq; done.
Qed.

(** X4. Updates of two different countries do not interfere: whichever
    of the four updaters each one is, the two can be applied in either
    order with the same result. *)
Theorem actions_commute (a1 a2 : action) (code1 code2 : string) prev :
  code1 ≠ code2 →
  act a1 code1 (act a2 code2 prev) = act a2 code2 (act a1 code1 prev).
Proof.
  intros Hne. apply map_eq. intros c.
  destruct (decide (c = code1)) as [->|Hc1]; [|destruct (decide (c = code2)) as [->|Hc2]].
  - rewrite (act_lookup_ne a2 code2 code1) by done.
    apply act_lookup_eq. by rewrite act_lookup_ne.
  - rewrite (act_lookup_ne a1 code1 code2) by done.
    apply act_lookup_eq. by rewrite act_lookup_ne.
  - by rewrite !act_lookup_ne.
Qed.

Lemma actions_commute_witness :
  "FR" ≠ "DE"
  ∧ act Toggle "FR" (act (AddPhotos ["c"]) "DE" Samples.twoPhotos)
    = act (AddPhotos ["c"]) "DE" (act Toggle "FR" Samples.twoPhotos).
Proof.
  assert ("FR" ≠ "DE") as Hne by discriminate.
  split; [exact Hne|].
  exact (actions_commute Toggle (AddPhotos ["c"]) "FR" "DE" Samples.twoPhotos Hne).
Defined.

Lemma visitedCount_insert prev code (r : CountryVisit) :
  visitedCount (<[code := r]> prev)
  = ((if isVisited r then 1 else 0) + visitedCount (delete code prev))%nat.
Proof.
  unfold visitedCount. rewrite <- insert_delete_eq.
  rewrite map_to_list_insert by apply lookup_delete_eq.
  rewrite fmap_cons, filter_cons. simpl.
  destruct (isVisited r); by case_decide.
Qed.

Lemma visitedCount_delete prev code :
  visitedCount prev
  = ((if visitedOf prev code then 1 else 0) + visitedCount (delete code prev))%nat.
Proof.
  unfold visitedOf. destruct (prev !! code) as [r|] eqn:Hr; simpl.
  - rewrite <- (insert_id prev code r Hr) at 1. by rewrite visitedCount_insert.
  - by rewrite delete_id.
Qed.

(** X5. The counter of visited countries goes up by one when
    [toggleVisit] marks a country and down by one when it unmarks one;
    setting a date and adding or removing photos leave it as it is. *)
Theorem visitedCount_updates prev code (d : string) (ps : list string) index :
  visitedCount (toggleVisit code prev)
  = (if visitedOf prev code then Nat.pred (visitedCount prev)
     else S (visitedCount prev))
  ∧ visitedCount (updateDate code d prev) = visitedCount prev
  ∧ visitedCount (addPhotos code ps prev) = visitedCount prev
  ∧ visitedCount (removePhoto code index prev) = visitedCount prev.
Proof.
  rewrite (visitedCount_delete prev code).
  unfold toggleVisit, updateDate, addPhotos, removePhoto, currentOr.
  split; [|split; [|split]].
  - rewrite visitedCount_insert. unfold isVisited. simpl.
    by destruct (visitedOf prev code).
  - rewrite visitedCount_insert. unfold isVisited, visitedOf.
    by destruct (prev !! code).
  - case_match; [by rewrite <- visitedCount_delete|].
    rewrite visitedCount_insert. unfold isVisited, visitedOf.
    by destruct (prev !! code).
  - rewrite visitedCount_insert. unfold isVisited, visitedOf.
    by destruct (prev !! code).
Qed.




End VisitStoreMore.

(* ===================================================================== *)
(** * The lightbox *)
(* ===================================================================== *)

Section LightboxFacts.

Import Lightbox.

Implicit Types (photos : list string) (i : Z).

Lemma rem_wrap (a b : Z) :
  0 ≤ a < 2 * b → Z.rem a b = if a <? b then a else a - b.
Proof.
  intros [Hlo Hhi]. destruct (a <? b) eqn:Hlt.
  - apply Z.ltb_lt in Hlt. apply Z.rem_small. lia.
  - apply Z.ltb_ge in Hlt.
    rewrite Z.rem_mod_nonneg by lia.
    symmetry. apply (Z.mod_unique_pos a b 1); lia.
Qed.

Lemma lightboxPhoto_in_range photos i :
  0 ≤ i < Z.of_nat (length photos) → is_Some (lightboxPhoto (Some i) photos).
Proof.
  intros [Hlo Hhi]. unfold lightboxPhoto.
  destruct (0 <=? i) eqn:H0; [|apply Z.leb_gt in H0; lia].
  destruct (i <? Z.of_nat (length photos)) eqn:H1; [|apply Z.ltb_ge in H1; lia].
  simpl. apply lookup_lt_is_Some. lia.
Qed.

(** X7. From a photo that is shown, the lightbox steps to the next and
    to the previous photo of the sequence and wraps around at its ends;
    the two steps undo each other, and after either of them a photo is
    shown again. *)
Theorem lightbox_steps photos i :
  0 ≤ i < Z.of_nat (length photos) →
  let len := Z.of_nat (length photos) in
  showNextLightbox (Some i) photos = Some (if i =? len - 1 then 0 else i + 1)
  ∧ showPrevLightbox (Some i) photos = Some (if i =? 0 then len - 1 else i - 1)
  ∧ showPrevLightbox (showNextLightbox (Some i) photos) photos = Some i
  ∧ showNextLightbox (showPrevLightbox (Some i) photos) photos = Some i
  ∧ is_Some (lightboxPhoto (showNextLightbox (Some i) photos) photos)
  ∧ is_Some (lightboxPhoto (showPrevLightbox (Some i) photos) photos).
Proof.
  intros Hin len.
  assert ((len =? 0) = false) as Hlen by (apply Z.eqb_neq; lia).
  assert (showNextLightbox (Some i) photos = Some (if i =? len - 1 then 0 else i + 1))
    as Hnext.
  { unfold showNextLightbox. fold len. rewrite Hlen, rem_wrap by lia.
    f_equal. destruct (i =? len - 1) eqn:He; [apply Z.eqb_eq in He|apply Z.eqb_neq in He];
      destruct (i + 1 <? len) eqn:Hl; try apply Z.ltb_lt in Hl; try apply Z.ltb_ge in Hl; lia. }
  assert (showPrevLightbox (Some i) photos = Some (if i =? 0 then len - 1 else i - 1))
    as Hprev.
  { unfold showPrevLightbox. fold len. rewrite Hlen, rem_wrap by lia.
    f_equal. destruct (i =? 0) eqn:He; [apply Z.eqb_eq in He|apply Z.eqb_neq in He];
      destruct (i - 1 + len <? len) eqn:Hl; try apply Z.ltb_lt in Hl; try apply Z.ltb_ge in Hl; lia. }
  rewrite Hnext, Hprev. split; [done|]. split; [done|].
  split; [|split; [|split]].
  - unfold showPrevLightbox. fold len. rewrite Hlen, rem_wrap
      by (destruct (i =? len - 1); lia).
    f_equal. destruct (i =? len - 1) eqn:He; [apply Z.eqb_eq in He|apply Z.eqb_neq in He];
      match goal with |- context [?a <? ?b] => destruct (a <? b) eqn:Hl end;
      try apply Z.ltb_lt in Hl; try apply Z.ltb_ge in Hl; lia.
  - unfold showNextLightbox. fold len. rewrite Hlen, rem_wrap
      by (destruct (i =? 0); lia).
    f_equal. destruct (i =? 0) eqn:He; [apply Z.eqb_eq in He|apply Z.eqb_neq in He];
      match goal with |- context [?a <? ?b] => destruct (a <? b) eqn:Hl end;
      try apply Z.ltb_lt in Hl; try apply Z.ltb_ge in Hl; lia.
  - apply lightboxPhoto_in_range. fold len.
    destruct (i =? len - 1) eqn:He; [apply Z.eqb_eq in He|apply Z.eqb_neq in He]; lia.
  - apply lightboxPhoto_in_range. fold len.
    destruct (i =? 0) eqn:He; [apply Z.eqb_eq in He|apply Z.eqb_neq in He]; lia.
Qed.

Lemma lightbox_steps_witness :
  0 ≤ 1 < Z.of_nat (length ["a"; "b"])
  ∧ showNextLightbox (Some 1) ["a"; "b"] = Some 0
  ∧ showPrevLightbox (Some 1) ["a"; "b"] = Some 0.
Proof.
  assert (0 ≤ 1 < Z.of_nat (length ["a"; "b"])) as Hin
    by (vm_compute; split; [discriminate|reflexivity]).
  split; [exact Hin|].
  destruct (lightbox_steps ["a"; "b"] 1 Hin) as (Hnext & Hprev & _).
  split; [exact Hnext | exact Hprev].
Defined.

End LightboxFacts.

(* ===================================================================== *)
(** * The upload of photos *)
(* ===================================================================== *)

Section PhotoUploadFacts.

Import VisitStore PhotoUpload.

Implicit Types (files : list File) (code : string) (st : AppState).

Lemma compressEach_spec files :
  ∀ (next : list string) (notice : option string),
    compressEach files next notice
    = (next ++ omap compressed files,
       if forallb (λ file, bool_decide (is_Some (compressed file))) files
       then notice else Some processingNotice).
Proof.
  induction files as [|file later IH]; intros next notice; simpl.
  - by rewrite app_nil_r.
  - destruct (compressImageToDataUrl file _ _) as [dataUrl|message] eqn:Hfile.
    + assert (compressed file = Some dataUrl) as Hsome
        by (unfold compressed; by rewrite Hfile).
      rewrite IH, <- app_assoc, Hsome. simpl.
      try rewrite bool_decide_eq_true_2 by eauto. done.
    + assert (compressed file = None) as Hnone
        by (unfold compressed; by rewrite Hfile).
      rewrite IH, Hnone. try rewrite bool_decide_eq_false_2 by (by intros [? ?]).
      simpl. by destruct (forallb _ later).
Qed.

(** X8. [handleFileChange] adds to the photos of [code] the data URLs of
    the files that compress, in the order in which the files were
    given, and drops the files that fail: one failing file does not
    stop the others. The notice is set when at least one file fails
    and is otherwise left as it was; when every file fails, or no file
    is given, the user data is the same as before. *)
Theorem handleFileChange_appends files code st :
  userData (handleFileChange files code st)
  = addPhotos code (omap compressed files) (userData st)
  ∧ photosOf (userData (handleFileChange files code st)) code
    = photosOf (userData st) code ++ omap compressed files
  ∧ storageError (handleFileChange files code st)
    = (if forallb (λ file, bool_decide (is_Some (compressed file))) files
       then storageError st else Some processingNotice).
Proof.
  assert (userData (handleFileChange files code st)
          = addPhotos code (omap compressed files) (userData st)) as Hdata.
  { unfold handleFileChange. destruct files as [|file later]; [done|].
    change (Z.of_nat (length (file :: later)) =? 0) with false.
    cbv iota. by rewrite compressEach_spec. }
  split; [done|]. split.
  - rewrite Hdata. unfold addPhotos, currentOr, photosOf.
    destruct (omap compressed files) as [|p ps] eqn:Hps; simpl;
      [by rewrite app_nil_r|].
    rewrite lookup_insert_eq. simpl. by destruct (userData st !! code).
  - unfold handleFileChange. destruct files as [|file later]; [done|].
    change (Z.of_nat (length (file :: later)) =? 0) with false.
    cbv iota. by rewrite compressEach_spec.
Qed.

(** A file compresses when it can be read, decodes to an image and the
    canvas gives a context; the canvas then has the size of C5. *)
Lemma compressed_Some (file : File) (dataUrl : string) :
  compressed file = Some dataUrl ↔
  ∃ text width height,
    readerResult file = Some text ∧ decoded file = Some (width, height)
    ∧ context2d file = true
    ∧ dataUrl = (let '(targetW, targetH) :=
                   ImageCompressor.defaultTargetSize width height in
                 toDataURL file targetW targetH defaultQuality).
Proof.
  unfold compressed, compressImageToDataUrl, ImageCompressor.defaultTargetSize.
  destruct (readerResult file) as [text|]; [|split; [done|by intros (?&?&?&?&_)]].
  destruct (decoded file) as [[width height]|];
    [|split; [done|by intros (?&?&?&_&?&_)]].
  destruct (context2d file).
  - split.
    + intros Heq. exists text, width, height. repeat split.
      destruct (ImageCompressor.targetSize width height _). by injection Heq.
    + intros (? & w' & h' & _ & [= <- <-] & _ & ->).
      by destruct (ImageCompressor.targetSize width height _).
  - split; [|by intros (?&?&?&_&_&?&_)].
    by destruct (ImageCompressor.targetSize width height _).
Qed.

End PhotoUploadFacts.

(* ===================================================================== *)
(** * The registry codes of the script *)
(* ===================================================================== *)

Section RegistryCodesFacts.

Import FlagFetcher FlagFetcherReading.

Lemma matchAt_code (cs : list ascii) (code : string) (len : nat) :
  matchAt cs = Some (code, len) → isCode code = true.
Proof.
  unfold matchAt. destruct (JSON.strip _ cs) as [r|]; [|done].
  destruct (skipSpaces r) as [n r'].
  destruct r' as [|q1 [|a [|b [|q2 rest]]]]; try done.
  destruct (JSON.eqc q1 JSON.quote && JSON.between "A" "Z" a
            && JSON.between "A" "Z" b && JSON.eqc q2 JSON.quote) eqn:Hcheck; [|done].
  intros [= <- _]. simpl.
  apply andb_prop in Hcheck as [Hcheck _].
  apply andb_prop in Hcheck as [Hcheck Hb].
  apply andb_prop in Hcheck as [_ Ha].
  by rewrite Ha, Hb.
Qed.

Lemma execAll_codes (cs : list ascii) :
  ∀ skip, Forall (λ code, isCode code = true) (execAll cs skip).
Proof.
  induction cs as [|c cs IH]; intros skip; simpl; [constructor|].
  destruct skip as [|k]; [|apply IH].
  destruct (matchAt (c :: cs)) as [[code len]|] eqn:Hmatch; [|apply IH].
  constructor; [by eapply matchAt_code|apply IH].
Qed.

Lemma setOf_spec (l : list string) :
  ∀ seen,
    NoDup (setOf l seen)
    ∧ ∀ x, x ∈ setOf l seen ↔ x ∈ l ∧ x ∉ seen.
Proof.
  induction l as [|y l IH]; intros seen; simpl.
  - split; [constructor|]. intros x. rewrite !elem_of_nil. tauto.
  - case_bool_decide as Hseen.
    + destruct (IH seen) as [Hnodup Hin]. split; [done|].
      intros x. rewrite Hin, elem_of_cons. naive_solver.
    + destruct (IH (y :: seen)) as [Hnodup Hin]. split.
      * constructor; [|done]. rewrite Hin, elem_of_cons. naive_solver.
      * intros x. rewrite !elem_of_cons, Hin, elem_of_cons.
        destruct (decide (x = y)); naive_solver.
Qed.

Lemma insertSorted_perm (x : string) (l : list string) :
  insertSorted x l ≡ₚ x :: l.
Proof.
  induction l as [|y l IH]; simpl; [done|].
  destruct (String.leb x y); [done|]. by rewrite IH, Permutation_swap.
Qed.

Lemma sort_perm (l : list string) : sort l ≡ₚ l.
Proof.
  unfold sort. induction l as [|x l IH]; simpl; [done|].
  by rewrite insertSorted_perm, IH.
Qed.

Lemma insertSorted_HdRel (a x : string) (l : list string) :
  String.leb a x = true →
  HdRel (λ a b, String.leb a b = true) a l →
  HdRel (λ a b, String.leb a b = true) a (insertSorted x l).
Proof.
  intros Hax Hhd. destruct l as [|y l]; simpl; [by constructor|].
  destruct (String.leb x y); constructor; [done|].
  by inversion Hhd.
Qed.

Lemma insertSorted_sorted (x : string) (l : list string) :
  Sorted (λ a b, String.leb a b = true) l →
  Sorted (λ a b, String.leb a b = true) (insertSorted x l).
Proof.
  induction l as [|y l IH]; intros Hsorted; simpl.
  - repeat constructor.
  - destruct (String.leb x y) eqn:Hxy.
    + constructor; [done|]. by constructor.
    + inversion Hsorted as [|? ? Hl Hhd]; subst.
      constructor; [by apply IH|].
      apply insertSorted_HdRel; [|done].
      destruct (String.leb_total x y) as [H|H]; [congruence|done].
Qed.

Lemma sort_sorted (l : list string) :
  Sorted (λ a b, String.leb a b = true) (sort l).
Proof.
  unfold sort. induction l as [|x l IH]; simpl; [constructor|].
  by apply insertSorted_sorted.
Qed.

Lemma leb_ne_ltb (a b : string) :
  String.leb a b = true → a ≠ b → String.ltb a b = true.
Proof.
  unfold String.leb, String.ltb. intros Hle Hne.
  destruct (String.compare a b) eqn:Hcmp; try done.
  by apply String.compare_eq_iff in Hcmp.
Qed.

(** Without repetitions, sorted is strictly ascending. *)
Lemma sorted_NoDup_ascending (l : list string) :
  Sorted (λ a b, String.leb a b = true) l → NoDup l → ascending l.
Proof.
  unfold ascending. induction 1 as [|x l Hsorted IH Hhd]; intros Hnodup;
    [constructor|].
  apply NoDup_cons in Hnodup as [Hx Hnodup].
  constructor; [by apply IH|].
  destruct Hhd as [|y l Hxy]; constructor.
  apply leb_ne_ltb; [done|]. intros ->. apply Hx, list_elem_of_here.
Qed.

(** X9. The codes that the script reads from the registry are texts of
    two upper-case letters, each one once, in strictly ascending order,
    whatever the text of the registry is. *)
Theorem registry_codes_ascending (source : string) :
  Forall (λ code, isCode code = true) (getCountryCodesFromConstants source)
  ∧ NoDup (getCountryCodesFromConstants source)
  ∧ ascending (getCountryCodesFromConstants source).
Proof.
  unfold getCountryCodesFromConstants.
  set (found := execAll (list_ascii_of_string source) 0).
  destruct (setOf_spec found []) as [Hnodup Hin].
  assert (NoDup (sort (setOf found []))) as Hnodup'
    by (by rewrite sort_perm).
  split; [|split; [done|]].
  - rewrite sort_perm. apply Forall_forall. intros code Hcode.
    apply Hin in Hcode as [Hcode _].
    pose proof (execAll_codes (list_ascii_of_string source) 0) as Hall.
    by eapply Forall_forall in Hall.
  - apply sorted_NoDup_ascending; [apply sort_sorted|done].
Qed.

End RegistryCodesFacts.

(* ===================================================================== *)
(** * Whole runs of the script *)
(* ===================================================================== *)

Section RunFacts.

Import FlagFetcher FlagFetcherReading.

Variable env : Env.

Implicit Types (w : World) (codes : list string) (evs : list Event).

Lemma requestCount_no_fetch evs ev :
  isFetch ev = false → requestCount (evs ++ [ev]) = requestCount evs.
Proof.
  intros Hev. rewrite requestCount_app. unfold requestCount at 2.
  rewrite filter_cons, decide_False by (rewrite Hev; by intros []).
  simpl. lia.
Qed.

(** What the download loop does to the world, whatever the network
    answers and the disk accepts: it never throws, every code is
    counted once, files are only added, and only at the destinations
    of the codes. *)
Lemma downloadEach_summary (flagUrlByCode : gmap string JS.Value) codes :
  ∀ (ok failed : nat) w,
  ∃ (ok' failed' : nat) evs (files' : gmap string string),
    downloadEach env flagUrlByCode codes ok failed w
    = (Ok (ok', failed'), mkWorld files' (trace w ++ evs) (exitCode w))
    ∧ (ok' + failed' = ok + failed + length codes)%nat
    ∧ (ok ≤ ok')%nat ∧ (failed ≤ failed')%nat
    ∧ files w ⊆ files'
    ∧ (∀ path, files w !! path = None → is_Some (files' !! path) →
               ∃ code, code ∈ codes ∧ path = outPathOf env code)
    ∧ (failed' = failed →
       Forall (λ code, is_Some (files' !! outPathOf env code)) codes)
    ∧ (requestCount evs ≤ 3 * length codes)%nat.
Proof.
  induction codes as [|code later IH]; intros ok failed w.
  - exists ok, failed, [], (files w). simpl. unfold ret.
    rewrite app_nil_r. destruct w as [fs tr ec]; simpl.
    split; [done|]. split; [lia|]. split; [lia|]. split; [lia|].
    split; [done|]. split; [|split; [by constructor|unfold requestCount; simpl; lia]].
    intros path Hnone [x Hx]. congruence.
  - (* the world w1 after the first code, with its counters *)
    assert (∃ (ok1 failed1 : nat) evs1 (files1 : gmap string string),
              downloadEach env flagUrlByCode (code :: later) ok failed w
              = downloadEach env flagUrlByCode later ok1 failed1
                  (mkWorld files1 (trace w ++ evs1) (exitCode w))
              ∧ (ok1 + failed1 = S (ok + failed))%nat
              ∧ (ok ≤ ok1)%nat ∧ (failed ≤ failed1)%nat
              ∧ files w ⊆ files1
              ∧ (∀ path, files w !! path = None → is_Some (files1 !! path) →
                         path = outPathOf env code)
              ∧ (failed1 = failed → is_Some (files1 !! outPathOf env code))
              ∧ (requestCount evs1 ≤ 3)%nat) as Hstep.
    { simpl. unfold bind at 1, tryCatch at 1, bind at 1, access.
      destruct (files w !! outPathOf env code) as [bytes|] eqn:Hfile.
      - (* the file is there *)
        exists (S ok), failed, [], (files w). unfold ret at 1.
        rewrite app_nil_r. destruct w as [fs tr ec]; simpl in *.
        repeat split; try done; try lia; try (unfold requestCount; simpl; lia);
          try (by eexists).
        intros path Hnone [x Hx]. congruence.
      - unfold ret at 1.
        destruct (truthy (flagUrlByCode !! code)) as [url|] eqn:Hurl.
        + unfold bind at 1, tryCatch at 1, bind at 1.
          rewrite downloadWithRetries_policy.
          destruct (retryPolicy_requests 400 (JS.toText url)
                      (bytesAttempt (JS.toText url)
                         (network env (requestCount (trace w)) (JS.toText url)))
                      (bytesAttempt (JS.toText url)
                         (network env (S (requestCount (trace w))) (JS.toText url)))
                      (bytesAttempt (JS.toText url)
                         (network env (S (S (requestCount (trace w)))) (JS.toText url))) w)
            as (r & evs1 & -> & _ & Hcount).
          destruct r as [bytes|e].
          * unfold bind at 1, writeFile.
            destruct (disk env (emitAll evs1 w)
                        (WriteFileCall (outPathOf env code) bytes)) as [m|] eqn:Hdisk.
            -- (* downloaded, and the write is refused *)
               exists ok, (S failed),
                 (evs1 ++ [ConsoleError ["Failed " +:+ code +:+ ":"; shown (FsError m)]]),
                 (files w).
               unfold bind at 1, console_error, perform, ret at 1, emit, emitAll.
               simpl. rewrite <- app_assoc.
               repeat split; try done; try lia.
               ++ intros path Hnone [x Hx]. congruence.
               ++ rewrite requestCount_no_fetch by done. lia.
            -- (* downloaded and written *)
               exists (S ok), failed, (evs1 ++ [WriteFile (outPathOf env code) bytes]),
                 (<[outPathOf env code := bytes]> (files w)).
               unfold ret at 1. simpl. rewrite <- app_assoc.
               repeat split; try done; try lia.
               ++ by apply insert_subseteq.
               ++ intros path Hnone [x Hx].
                  destruct (decide (path = outPathOf env code)) as [->|Hne]; [done|].
                  rewrite lookup_insert_ne in Hx by done. congruence.
               ++ intros _. rewrite lookup_insert_eq. by eexists.
               ++ rewrite requestCount_no_fetch by done. lia.
          * (* the download failed *)
            exists ok, (S failed),
              (evs1 ++ [ConsoleError ["Failed " +:+ code +:+ ":"; shown e]]), (files w).
            unfold bind at 1, console_error, perform, ret at 1, emit, emitAll.
            simpl. rewrite <- app_assoc.
            repeat split; try done; try lia.
            -- intros path Hnone [x Hx]. congruence.
            -- rewrite requestCount_no_fetch by done. lia.
        + (* no resolved URL *)
          exists ok, (S failed),
            [ConsoleError ["Failed " +:+ code +:+ ": no flag URL from restcountries"]],
            (files w).
          unfold bind at 1, console_error, perform, emit. simpl.
          repeat split; try done; try lia; try (unfold requestCount; simpl; lia).
          intros path Hnone [x Hx]. congruence. }
    destruct Hstep as (ok1 & failed1 & evs1 & files1 & -> & Hsum1 & Hok1 & Hfailed1
                       & Hsub1 & Hnew1 & Hpresent1 & Hcount1).
    destruct (IH ok1 failed1 (mkWorld files1 (trace w ++ evs1) (exitCode w)))
      as (ok' & failed' & evs2 & files' & -> & Hsum & Hok & Hfailed
          & Hsub & Hnew & Hpresent & Hcount).
    simpl in *.
    exists ok', failed', (evs1 ++ evs2), files'. rewrite <- app_assoc.
    split; [done|]. split; [lia|]. split; [lia|]. split; [lia|].
    split; [by etrans|]. split; [|split].
    + intros path Hnone Hsome.
      destruct (files1 !! path) as [x|] eqn:Hpath.
      * exists code. split; [apply list_elem_of_here|].
        apply Hnew1; [done|by eexists].
      * destruct (Hnew path Hpath Hsome) as (c & Hc & ->).
        exists c. split; [by apply list_elem_of_further|done].
    + intros Heq. constructor.
      * destruct Hpresent1 as [x Hx]; [lia|].
        exists x. by eapply lookup_weaken.
      * apply Hpresent. lia.
    + rewrite requestCount_app. lia.
Qed.

Lemma chunk_count codes :
  length (chunk codes CODES_PER_CHUNK) = ((length codes + 24) / 25)%nat.
Proof.
  unfold chunk. change (Z.to_nat CODES_PER_CHUNK) with 25%nat.
  destruct (chunkFrom_spec (A := string) 25 ltac:(lia) (length codes) codes (le_n _))
    as (_ & _ & Hcount).
  rewrite Hcount. f_equal. lia.
Qed.

(** A run from the point where the codes are known: the [mkdir] is
    refused, or the metadata phase throws, or the run goes through the
    codes. The metadata phase throws only on an answer that is not
    readable. *)
Lemma run_cases codes w :
  refusedRun env codes w
  ∨ (mkdirAccepted env w ∧ ¬ answersReadable env ∧ abortedRun env codes w)
  ∨ (mkdirAccepted env w ∧ completedRun env codes w).
Proof.
  destruct (mkdirRefusal env (OUTPUT_DIR env) w) as [m|] eqn:Hdisk.
  { left. exists m. split; [done|]. by apply run_mkdir_refused. }
  right.
  destruct (getFlagUrlByCode_events env codes (emit (Mkdir (OUTPUT_DIR env)) w))
    as (r & evs1 & Hresolve & Hevs1 & Hcount1 & _ & Hreadable).
  destruct r as [flagUrlByCode|e].
  - right. split; [done|].
    destruct (downloadEach_summary flagUrlByCode codes 0 0
                (emitAll evs1 (emit (Mkdir (OUTPUT_DIR env)) w)))
      as (ok & failed & evs2 & files' & Hloop & Hsum & _ & _ & Hsub & Hnew
          & Hpresent & Hcount2).
    exists ok, failed, (evs1 ++ evs2), files'.
    split; [|split; [lia|split; [done|split; [done|split; [done|]]]]].
    + rewrite (run_resolved env codes w flagUrlByCode _ Hdisk Hresolve).
      unfold bind at 1. rewrite Hloop.
      unfold bind at 1, console_log, perform, emit, doneEvent. simpl.
      rewrite <- !app_assoc. simpl.
      by destruct (0 <? failed)%nat.
    + rewrite requestCount_app. lia.
  - left. split; [done|]. split.
    + intros Hall. destruct (Hreadable Hall) as [map Hmap]. discriminate.
    + exists e, evs1. split; [|done]. by apply run_aborted.
Qed.


(** X10. The codes are resolved in chunks that, put end to end, are the
    list of codes: no code is left out or asked for twice, every chunk
    has between 1 and 25 codes, and there are as many chunks as 25 goes
    into the number of codes, rounded up. *)
Theorem chunks_partition_codes codes :
  concat (chunk codes CODES_PER_CHUNK) = codes
  ∧ Forall (λ part, (1 ≤ length part ≤ 25)%nat) (chunk codes CODES_PER_CHUNK)
  ∧ length (chunk codes CODES_PER_CHUNK) = ((length codes + 24) / 25)%nat.
Proof.
  unfold chunk. change (Z.to_nat CODES_PER_CHUNK) with 25%nat.
  destruct (chunkFrom_spec (A := string) 25 ltac:(lia) (length codes) codes (le_n _))
    as (Hconcat & Hparts & Hcount).
  split; [done|]. split; [done|]. rewrite Hcount. f_equal. lia.
Qed.


(** X12. A run does not change or remove a file that is there: every
    file of before is there afterwards with the same content, and a
    file that is new is the destination of one of the codes. *)
Theorem run_keeps_files codes w :
  files w ⊆ files (snd (run env codes w))
  ∧ ∀ path, files w !! path = None →
            is_Some (files (snd (run env codes w)) !! path) →
            ∃ code, code ∈ codes ∧ path = outPathOf env code.
Proof.
  destruct (run_cases codes w)
    as [(m & _ & ->)|[(_ & _ & e & evs & -> & _)
                     |(_ & ok & failed & evs & files' & -> & _ & Hsub & Hnew & _)]];
    simpl; [| |by split];
    (split; [done|]; intros path Hnone [x Hx]; congruence).
Qed.

Lemma run_success_present codes w :
  exitCode w = None →
  exitStatus (run env codes w) = 0 →
  allPresent env codes (snd (run env codes w))
  ∧ exitCode (snd (run env codes w)) = None.
Proof.
  intros Hfresh.
  destruct (run_cases codes w)
    as [(m & _ & ->)|[(_ & _ & e & evs & -> & _)
                     |(_ & ok & failed & evs & files' & -> & _ & _ & _ & Hpresent & _)]];
    simpl; [discriminate|discriminate|].
  destruct failed as [|n]; simpl; [intros _; split; by try apply Hpresent|].
  discriminate.
Qed.

(** X13. When a run of a fresh process ends with exit status 0, the
    destination file of every code is there. *)
Theorem run_success_all_present codes w :
  exitCode w = None →
  exitStatus (run env codes w) = 0 →
  allPresent env codes (snd (run env codes w)).
Proof. intros Hfresh Hexit. by apply run_success_present. Qed.



(** X14. A run makes at most three requests for each chunk of codes and
    at most three for each code. *)
Theorem run_request_bound codes w :
  (requestCount (trace (snd (run env codes w)))
   ≤ requestCount (trace w) + 3 * ((length codes + 24) / 25 + length codes))%nat.
Proof.
  pose proof (chunk_count codes) as Hchunks.
  destruct (run_cases codes w)
    as [(m & _ & ->)|[(_ & _ & e & evs & -> & _ & Hcount)
                     |(_ & ok & failed & evs & files' & -> & _ & _ & _ & _ & Hcount)]];
    cbn [snd trace]; [lia| |].
  - rewrite requestCount_app.
    change (Mkdir (OUTPUT_DIR env) :: evs ++ abortEvents e)
      with ([Mkdir (OUTPUT_DIR env)] ++ evs ++ abortEvents e).
    rewrite !requestCount_app.
    change (requestCount [Mkdir (OUTPUT_DIR env)]) with 0%nat.
    change (requestCount (abortEvents e)) with 0%nat.
    rewrite Hchunks in Hcount. lia.
  - rewrite requestCount_app.
    change (Mkdir (OUTPUT_DIR env) :: evs ++ [doneEvent env ok failed])
      with ([Mkdir (OUTPUT_DIR env)] ++ evs ++ [doneEvent env ok failed]).
    rewrite requestCount_app, requestCount_no_fetch by done.
    change (requestCount [Mkdir (OUTPUT_DIR env)]) with 0%nat.
    rewrite Hchunks in Hcount. lia.
Qed.


End RunFacts.

Section RunWitnesses.

Import FlagFetcher FlagFetcherReading.


Lemma run_success_all_present_witness :
  exitCode Samples.freshCheckout = None
  ∧ exitStatus (run Samples.reachable ["FR"; "JP"; "US"] Samples.freshCheckout) = 0
  ∧ allPresent Samples.reachable ["FR"; "JP"; "US"]
      (snd (run Samples.reachable ["FR"; "JP"; "US"] Samples.freshCheckout)).
Proof.
  assert (exitStatus (run Samples.reachable ["FR"; "JP"; "US"] Samples.freshCheckout) = 0)
    as Hexit by reflexivity.
  split; [reflexivity|]. split; [exact Hexit|].
  exact (run_success_all_present Samples.reachable ["FR"; "JP"; "US"]
           Samples.freshCheckout eq_refl Hexit).
Defined.


End RunWitnesses.

(* ===================================================================== *)
(** * Destination paths and resolved URLs *)
(* ===================================================================== *)

Section PathFacts.

Import FlagFetcher FlagFetcherReading.

Lemma string_app_inj_prefix (p a b : string) : p +:+ a = p +:+ b → a = b.
Proof. induction p as [|c p IH]; simpl; [done|]. intros [= H]. by apply IH. Qed.

Lemma upper_lower_letter (c : ascii) :
  JSON.between "A" "Z" c = true → upperChar (lowerChar c) = c.
Proof.
  destruct c as [[] [] [] [] [] [] [] []]; vm_compute; intros H;
    first [reflexivity | discriminate H].
Qed.


Lemma lowerChar_inj (a b : ascii) :
  JSON.between "A" "Z" a = true → JSON.between "A" "Z" b = true →
  lowerChar a = lowerChar b → a = b.
Proof.
  intros Ha Hb Heq.
  rewrite <- (upper_lower_letter a Ha), <- (upper_lower_letter b Hb).
  by rewrite Heq.
Qed.

Lemma outPathOf_inj (env : Env) (code1 code2 : string) :
  isCode code1 = true → isCode code2 = true →
  outPathOf env code1 = outPathOf env code2 → code1 = code2.
Proof.
  intros H1 H2 Hpath.
  destruct code1 as [|a1 [|b1 [|]]]; try done.
  destruct code2 as [|a2 [|b2 [|]]]; try done.
  simpl in H1, H2.
  apply andb_prop in H1 as [Ha1 Hb1]. apply andb_prop in H2 as [Ha2 Hb2].
  unfold outPathOf, path_join in Hpath.
  apply string_app_inj_prefix in Hpath.
  apply (string_app_inj_prefix "/") in Hpath.
  unfold toLowerCase, mapChars in Hpath. simpl in Hpath.
  injection Hpath as Ha Hb.
  apply lowerChar_inj in Ha; [|done..]. apply lowerChar_inj in Hb; [|done..].
  by subst.
Qed.

(** X16. Two different registry codes have different destination
    files: no flag is written over the flag of another code. *)
Theorem outPathOf_distinct (env : Env) (code1 code2 : string) :
  isCode code1 = true → isCode code2 = true →
  code1 ≠ code2 → outPathOf env code1 ≠ outPathOf env code2.
Proof. intros H1 H2 Hne Hpath. by apply Hne, (outPathOf_inj env). Qed.

Lemma outPathOf_distinct_witness :
  isCode "FR" = true ∧ isCode "JP" = true ∧ "FR" ≠ "JP"
  ∧ outPathOf Samples.reachable "FR" ≠ outPathOf Samples.reachable "JP".
Proof.
  assert ("FR" ≠ "JP") as Hne by discriminate.
  split; [reflexivity|]. split; [reflexivity|]. split; [exact Hne|].
  exact (outPathOf_distinct Samples.reachable "FR" "JP" eq_refl eq_refl Hne).
Defined.









End PathFacts.

(* ===================================================================== *)
(** * The progress figure *)
(* ===================================================================== *)

Section ProgressFacts.

Import VisitStore VisitStats.

(** X18. With a registry of at least one country and no more visited
    records than the registry has countries, the progress figure is a
    whole percentage between 0 and 100. *)
Theorem progress_range (userData : UserData) (total : Z) :
  1 ≤ total →
  Z.of_nat (visitedCount userData) ≤ total →
  0 ≤ progress userData total ≤ 100.
Proof.
  intros Htotal Hcount. unfold progress, JS.mul, JS.div.
  set (count := Z.of_nat (visitedCount userData)) in *.
  assert (0 <= inject_Z count / inject_Z total <= 1)%Q as [Hlo Hhi].
  { assert (0 < inject_Z total)%Q by (rewrite <- (Zlt_Qlt 0); lia).
    split.
    - apply Qle_shift_div_l; [done|]. rewrite Qmult_0_l, <- (Zle_Qle 0). lia.
    - apply Qle_shift_div_r; [done|]. rewrite Qmult_1_l, <- Zle_Qle. lia. }
  (* the quotient, as a double, is between 0 and 1 *)
  assert (0 <= JS.double (inject_Z count / inject_Z total) <= 1)%Q as [Hqlo Hqhi].
  { split; [by apply double_nonneg|].
    apply Qle_trans with (JS.double 1); [by apply double_mono|].
    by rewrite (double_integer 1). }
  generalize dependent (JS.double (inject_Z count / inject_Z total)).
  intros ratio Hqlo Hqhi.
  (* and the product, as a double, between 0 and 100 *)
  assert (0 <= JS.double (ratio * 100) <= 100)%Q as [Hplo Hphi].
  { split; [apply double_nonneg; lra|].
    apply Qle_trans with (JS.double 100); [apply double_mono; lra|].
    by rewrite (double_integer 100). }
  generalize dependent (JS.double (ratio * 100)). intros percent Hplo Hphi.
  split.
  - apply Z.le_trans with (JS.Math_round (inject_Z 0));
      [by rewrite Math_round_inject_Z|].
    by apply Math_round_mono.
  - apply Z.le_trans with (JS.Math_round (inject_Z 100));
      [|by rewrite Math_round_inject_Z].
    by apply Math_round_mono.
Qed.

Lemma progress_range_witness :
  1 ≤ 195 ∧ Z.of_nat (visitedCount Samples.twoPhotos) ≤ 195
  ∧ 0 ≤ progress Samples.twoPhotos 195 ≤ 100.
Proof.
  assert (1 ≤ 195) as Htotal by lia.
  assert (Z.of_nat (visitedCount Samples.twoPhotos) ≤ 195) as Hcount
    by (vm_compute; discriminate).
  split; [exact Htotal|]. split; [exact Hcount|].
  exact (progress_range Samples.twoPhotos 195 Htotal Hcount).
Defined.

End ProgressFacts.

(* ===================================================================== *)
(** * More on the canvas size and on the index of removePhoto *)
(* ===================================================================== *)

Section CanvasSizeFacts.

Import ImageCompressor PhotoUpload.

(** X19. For a file that is read and decoded to an image with sides
    between 1 and 2^49 pixels, and a whole bound [maxSize] of at least
    1 pixel, the canvas that [compressImageToDataUrl] draws on is never
    larger than the image on either side. An image whose longer side is
    within [maxSize] keeps its size; a larger one is scaled so that its
    longer side is exactly [maxSize], the rounding to doubles of the
    quotient and of the products notwithstanding. *)
Theorem compressImageToDataUrl_scaling (file : File) (width height maxSize : Z)
    (quality : Q) :
  is_Some (readerResult file) → decoded file = Some (width, height) →
  context2d file = true →
  1 ≤ width ≤ maxSide → 1 ≤ height ≤ maxSide → 1 ≤ maxSize →
  ∃ targetW targetH,
    targetSize width height (inject_Z maxSize) = (targetW, targetH)
    ∧ compressImageToDataUrl file (inject_Z maxSize) quality
      = Resolved (toDataURL file targetW targetH quality)
    ∧ targetW ≤ width ∧ targetH ≤ height
    ∧ (if Z.max width height <=? maxSize
       then (targetW, targetH) = (width, height)
       else Z.max targetW targetH = maxSize).
Proof.
  intros Hread Hdecoded Hcontext Hw Hh Hm.
  pose proof (compressImageToDataUrl_resolves file width height (inject_Z maxSize)
                quality Hread Hdecoded Hcontext) as Hresolved.
  pose proof (targetSize_range width height maxSize Hw Hh Hm) as Hrange.
  destruct (targetSize width height (inject_Z maxSize)) as [targetW targetH].
  exists targetW, targetH. destruct Hrange as (_ & [_ HW] & [_ HH] & Hcases).
  by repeat split.
Qed.

Lemma compressImageToDataUrl_scaling_witness :
  1 ≤ 3712 ≤ maxSide ∧ 1 ≤ 2349 ≤ maxSide ∧ 1 ≤ 1600
  ∧ ∃ targetW targetH,
      targetSize 3712 2349 (inject_Z 1600) = (targetW, targetH)
      ∧ compressImageToDataUrl (Samples.picture 3712 2349) (inject_Z 1600) defaultQuality
        = Resolved (toDataURL (Samples.picture 3712 2349) targetW targetH defaultQuality)
      ∧ targetW ≤ 3712 ∧ targetH ≤ 2349
      ∧ Z.max targetW targetH = 1600.
Proof.
  assert (1 ≤ 3712 ≤ maxSide) as Hw by (by vm_compute).
  assert (1 ≤ 2349 ≤ maxSide) as Hh by (by vm_compute).
  assert (1 ≤ 1600) as Hm by lia.
  split; [exact Hw|]. split; [exact Hh|]. split; [exact Hm|].
  exact (compressImageToDataUrl_scaling (Samples.picture 3712 2349) 3712 2349 1600
           defaultQuality ltac:(by eexists) eq_refl eq_refl Hw Hh Hm).
Defined.

End CanvasSizeFacts.

Section RemoveIndexFacts.

Import VisitStore.

Lemma splice_far_negative {A} (l : list A) (start : Z) :
  start < - Z.of_nat (length l) → JS.splice l start 1 = delete 0%nat l.
Proof.
  intros Hlow. unfold JS.splice, JS.splice_start.
  destruct (start <? 0) eqn:Hneg; [|apply Z.ltb_ge in Hneg; lia].
  rewrite Z.max_r by lia. destruct l as [|x l]; [done|].
  replace (Z.min (Z.max 1 0) _) with 1 by (simpl length; lia).
  reflexivity.
Qed.

(** X20. [removePhoto] takes a negative index as a position counted
    from the end of the photo sequence: -1 removes the last photo, and
    an index below minus the length removes the first one. Only an
    empty sequence is left unchanged by a negative index. *)
Theorem removePhoto_negative (prev : UserData) (code : string) (index : Z) :
  index < 0 →
  let photos := photosOf prev code in
  let len := Z.of_nat (length photos) in
  photosOf (removePhoto code index prev) code
  = delete (Z.to_nat (Z.max (len + index) 0)) photos.
Proof.
  intros Hneg. cbv zeta. unfold removePhoto.
  rewrite photosOf_insert, decide_True by done. simpl.
  generalize (photosOf prev code). intros l.
  destruct (Z_lt_le_dec index (- Z.of_nat (length l))) as [Hfar|Hnear].
  - rewrite splice_far_negative by done. f_equal. lia.
  - rewrite splice_negative_start by lia.
    rewrite delete_take_drop. f_equal; f_equal; lia.
Qed.

Lemma removePhoto_negative_witness :
  -5 < 0
  ∧ photosOf (removePhoto "FR" (-5) Samples.twoPhotos) "FR" = ["b"].
Proof.
  assert (-5 < 0) as Hneg by lia.
  split; [exact Hneg|].
  exact (removePhoto_negative Samples.twoPhotos "FR" (-5) Hneg).
Defined.

End RemoveIndexFacts.

(* ===================================================================== *)
(** * A run on a network that works *)
(* ===================================================================== *)

Section WorkingNetwork.

Import FlagFetcher FlagFetcherReading.

Variable env : Env.
Variables urlOf bytesOf : string → string.

Implicit Types (w : World) (codes : list string) (map : gmap string JS.Value).

(** Every entry of the map is the URL of its code. *)
Let faithful map : Prop :=
  ∀ code url, map !! code = Some url → url = JS.Text (urlOf code).

Lemma truthy_nonempty (s : string) :
  s ≠ EmptyString → truthy (Some (JS.Text s)) = Some (JS.Text s).
Proof.
  intros Hs. unfold truthy. simpl.
  destruct (String.eqb s EmptyString) eqn:Heq; [|done].
  by apply String.eqb_eq in Heq.
Qed.

Lemma addItem_itemOf map (code : string) :
  toUpperCase code = code → code ≠ EmptyString → urlOf code ≠ EmptyString →
  addItem map (itemOf urlOf code) = Ok (<[code := JS.Text (urlOf code)]> map).
Proof.
  intros Hupper Hcode Hurl. unfold addItem, itemOf, JS.get. cbn [JS.lookupMember].
  change (String.eqb "cca2" "cca2") with true.
  change (String.eqb "cca2" "flags") with false.
  change (String.eqb "flags" "flags") with true.
  cbn [mbind option_bind JS.get JS.lookupMember].
  change (String.eqb "svg" "svg") with true. cbv iota.
  rewrite !truthy_nonempty by done.
  by rewrite Hupper.
Qed.

Lemma addItems_itemOf (part : list string) :
  plainCodes urlOf part →
  ∀ map,
    faithful map →
    ∃ map',
      addItems map (itemOf urlOf <$> part) = Ok map'
      ∧ faithful map'
      ∧ (∀ code, code ∈ part → map' !! code = Some (JS.Text (urlOf code)))
      ∧ (∀ code, is_Some (map !! code) → is_Some (map' !! code)).
Proof.
  unfold plainCodes. induction part as [|c part IH]; intros Hplain map Hmap; simpl.
  - exists map. split; [done|]. split; [done|]. split; [|done].
    intros code Hin. by apply elem_of_nil in Hin.
  - apply Forall_cons in Hplain as [(Hupper & Hcode & Hurl) Hplain].
    rewrite addItem_itemOf by done.
    assert (faithful (<[c := JS.Text (urlOf c)]> map)) as Hmap'.
    { intros k v. rewrite lookup_insert. case_decide; [by intros [= <-]; subst|apply Hmap]. }
    destruct (IH Hplain _ Hmap') as (map' & Heq & Hfaithful & Hin & Hkeep).
    exists map'. split; [done|]. split; [done|]. split.
    + intros code Hcode'. apply elem_of_cons in Hcode' as [Heq'|Hcode'];
        [subst code|by apply Hin].
      destruct (Hkeep c) as [url Hurl']; [rewrite lookup_insert_eq; by eexists|].
      pose proof (Hfaithful c url Hurl'). subst url. exact Hurl'.
    + intros code Hsome. apply Hkeep. rewrite lookup_insert.
      case_decide; [by eexists|done].
Qed.

Lemma resolveChunks_working (chunks : list (list string)) :
  answersMetadata env urlOf chunks →
  plainCodes urlOf (concat chunks) →
  ∀ map w,
    faithful map →
    ∃ map',
      resolveChunks env chunks map w
      = (Ok map', emitAll (Fetch ∘ chunkUrl <$> chunks) w)
      ∧ faithful map'
      ∧ (∀ code, code ∈ concat chunks → map' !! code = Some (JS.Text (urlOf code)))
      ∧ (∀ code, is_Some (map !! code) → is_Some (map' !! code)).
Proof.
  induction chunks as [|part later IH]; intros Hnet Hplain map w Hmap; simpl.
  - exists map. rewrite emitAll_nil. split; [done|]. split; [done|].
    split; [|done]. intros code Hin. by apply elem_of_nil in Hin.
  - simpl in Hplain. apply Forall_app in Hplain as [Hpart Hlater].
    unfold bind at 1, tryCatch, bind at 1.
    rewrite fetchJsonWithRetries_policy.
    rewrite (Hnet _ part) by apply list_elem_of_here.
    unfold retryPolicy, ret at 1, bind at 1, settle, addAnswer, iterate.
    destruct (addItems_itemOf part Hpart map Hmap)
      as (map1 & -> & Hfaithful & Hin & Hkeep).
    destruct (IH (λ n p Hp, Hnet n p (list_elem_of_further _ _ _ Hp)) Hlater
                map1 (emitAll [Fetch (chunkUrl part)] w) Hfaithful)
      as (map' & -> & Hfaithful' & Hin' & Hkeep').
    exists map'. rewrite emitAll_emitAll. split; [done|]. split; [done|]. split.
    + intros code Hcode. apply elem_of_app in Hcode as [Hcode|Hcode];
        [|by apply Hin'].
      destruct (Hkeep' code) as [url Hurl]; [rewrite Hin by done; by eexists|].
      pose proof (Hfaithful' code url Hurl). subst url. exact Hurl.
    + intros code Hsome. by apply Hkeep', Hkeep.
Qed.

(** With a URL for every code, downloads that succeed and writes
    that are accepted, the loop counts no failure, and a file that is
    new holds the bytes of a code that has it as its destination. *)
Lemma downloadEach_working map codes :
  answersDownloads env urlOf bytesOf codes →
  plainCodes urlOf codes →
  writesAccepted env →
  (∀ code, code ∈ codes → map !! code = Some (JS.Text (urlOf code))) →
  ∀ (ok failed : nat) w,
  ∃ evs (files' : gmap string string),
    downloadEach env map codes ok failed w
    = (Ok ((ok + length codes)%nat, failed),
       mkWorld files' (trace w ++ evs) (exitCode w))
    ∧ Forall (λ ev, ∃ code, code ∈ codes
                     ∧ (ev = Fetch (urlOf code)
                        ∨ ev = WriteFile (outPathOf env code) (bytesOf code))) evs
    ∧ files w ⊆ files'
    ∧ (∀ path bytes, files w !! path = None → files' !! path = Some bytes →
         ∃ code, code ∈ codes ∧ path = outPathOf env code ∧ bytes = bytesOf code).
Proof.
  unfold plainCodes.
  induction codes as [|code later IH]; intros Hnet Hplain Hdisk Hmap ok failed w; simpl.
  - exists [], (files w). unfold ret. rewrite app_nil_r, Nat.add_0_r.
    destruct w; simpl. split; [done|]. split; [constructor|]. split; [done|].
    intros; congruence.
  - apply Forall_cons in Hplain as [(Hupper & Hcode & Hurl) Hplain].
    assert (answersDownloads env urlOf bytesOf later) as Hnet'
      by (intros n c Hc; apply Hnet; by apply list_elem_of_further).
    assert (∀ c, c ∈ later → map !! c = Some (JS.Text (urlOf c))) as Hmap'
      by (intros c Hc; apply Hmap; by apply list_elem_of_further).
    unfold bind at 1, tryCatch at 1, bind at 1, access.
    destruct (files w !! outPathOf env code) as [present|] eqn:Hfile.
    + unfold ret at 1.
      destruct (IH Hnet' Hplain Hdisk Hmap' (S ok) failed w)
        as (evs & files' & -> & Hevs & Hsub & Hnew).
      exists evs, files'. split; [do 3 f_equal; lia|]. split; [|split; [done|]].
      * eapply Forall_impl; [exact Hevs|]. intros ev (c & Hc & Hev).
        exists c. split; [by apply list_elem_of_further|done].
      * intros path bytes Hnone Hsome.
        destruct (Hnew path bytes Hnone Hsome) as (c & Hc & ? & ?).
        exists c. split; [by apply list_elem_of_further|done].
    + unfold ret at 1.
      rewrite (Hmap code) by apply list_elem_of_here.
      rewrite truthy_nonempty by done.
      unfold bind at 1, tryCatch at 1, bind at 1.
      rewrite downloadWithRetries_policy. cbn [JS.toText].
      rewrite (Hnet _ code) by apply list_elem_of_here.
      unfold retryPolicy, bind at 1, writeFile. rewrite Hdisk.
      unfold ret at 1. cbn [trace files exitCode emitAll].
      destruct (IH Hnet' Hplain Hdisk Hmap' (S ok) failed
                  (mkWorld (<[outPathOf env code := bytesOf code]> (files w))
                     ((trace w ++ [Fetch (urlOf code)])
                        ++ [WriteFile (outPathOf env code) (bytesOf code)])
                     (exitCode w)))
        as (evs & files' & -> & Hevs & Hsub & Hnew).
      exists ([Fetch (urlOf code); WriteFile (outPathOf env code) (bytesOf code)] ++ evs),
        files'.
      cbn [trace files exitCode] in *. rewrite <- !app_assoc.
      split; [do 3 f_equal; lia|]. split; [|split].
      * apply Forall_app. split.
        -- repeat (constructor; [exists code; split; [apply list_elem_of_here|by eauto]|]).
           constructor.
        -- eapply Forall_impl; [exact Hevs|]. intros ev (c & Hc & Hev).
           exists c. split; [by apply list_elem_of_further|done].
      * etrans; [|exact Hsub]. by apply insert_subseteq.
      * intros path bytes Hnone Hsome.
        destruct (decide (path = outPathOf env code)) as [->|Hne].
        -- exists code. split; [apply list_elem_of_here|]. split; [done|].
           assert (files' !! outPathOf env code = Some (bytesOf code)) as Hthere
             by (eapply lookup_weaken; [apply lookup_insert_eq|done]).
           congruence.
        -- destruct (Hnew path bytes) as (c & Hc & ? & ?);
             [by rewrite lookup_insert_ne|done|].
           exists c. split; [by apply list_elem_of_further|done].
Qed.

(** X21. On a network that works and a disk that lets the output
    directory be made and every file be written, a run of a fresh
    process saves every code: it makes one metadata request for each
    chunk, downloads each missing flag at the first attempt, reports no
    failure and ends with exit status 0. Every destination is there
    afterwards, every file of before is unchanged, and a file that is
    new holds the bytes downloaded for a code that has it as its
    destination. *)
Theorem run_on_working_network codes w :
  answersMetadata env urlOf (chunk codes CODES_PER_CHUNK) →
  answersDownloads env urlOf bytesOf codes →
  plainCodes urlOf codes →
  mkdirAccepted env w →
  writesAccepted env →
  exitCode w = None →
  ∃ evs (files' : gmap string string),
    run env codes w
    = (Ok tt,
       mkWorld files'
         (trace w ++ Mkdir (OUTPUT_DIR env)
            :: (Fetch ∘ chunkUrl <$> chunk codes CODES_PER_CHUNK) ++ evs
            ++ [doneEvent env (length codes) 0])
         None)
    ∧ Forall (λ ev, ∃ code, code ∈ codes
                     ∧ (ev = Fetch (urlOf code)
                        ∨ ev = WriteFile (outPathOf env code) (bytesOf code))) evs
    ∧ files w ⊆ files'
    ∧ Forall (λ code, is_Some (files' !! outPathOf env code)) codes
    ∧ (∀ path bytes, files w !! path = None → files' !! path = Some bytes →
         ∃ code, code ∈ codes ∧ path = outPathOf env code ∧ bytes = bytesOf code)
    ∧ exitStatus (run env codes w) = 0.
Proof.
  intros Hmeta Hdown Hplain Hmkdir Hwrites Hfresh.
  destruct (chunk_codes codes) as (Hconcat & _).
  destruct (resolveChunks_working (chunk codes CODES_PER_CHUNK) Hmeta
              ltac:(by rewrite Hconcat) ∅ (emit (Mkdir (OUTPUT_DIR env)) w))
    as (map & Hresolve & _ & Hmap & _); [by intros c u; rewrite lookup_empty|].
  rewrite Hconcat in Hmap.
  set (w1 := emitAll (Fetch ∘ chunkUrl <$> chunk codes CODES_PER_CHUNK)
               (emit (Mkdir (OUTPUT_DIR env)) w)) in *.
  destruct (downloadEach_working map codes Hdown Hplain Hwrites Hmap 0 0 w1)
    as (evs & files' & Hloop & Hevs & Hsub & Hnew).
  destruct (downloadEach_summary env map codes 0 0 w1)
    as (ok' & failed' & evs' & files'' & Hloop' & _ & _ & _ & _ & _ & Hpresent & _).
  rewrite Hloop in Hloop'. injection Hloop' as _ Hfailed Hfiles _.
  subst files'' failed'.
  assert (run env codes w
          = (Ok tt,
             mkWorld files'
               (trace w ++ Mkdir (OUTPUT_DIR env)
                  :: (Fetch ∘ chunkUrl <$> chunk codes CODES_PER_CHUNK) ++ evs
                  ++ [doneEvent env (length codes) 0])
               None)) as Hrun.
  { rewrite (run_resolved env codes w map w1 Hmkdir Hresolve).
    unfold bind at 1. rewrite Hloop.
    unfold bind at 1, console_log, perform, emit, doneEvent, ret. subst w1.
    simpl. rewrite Hfresh, <- !app_assoc. reflexivity. }
  exists evs, files'. rewrite Hrun.
  split; [done|]. split; [done|]. split; [done|]. split; [by apply Hpresent|].
  split; [exact Hnew|]. reflexivity.
Qed.

End WorkingNetwork.

Section WorkingNetworkWitness.

Import FlagFetcher FlagFetcherReading.

Lemma working_answersMetadata :
  answersMetadata MoreSamples.working MoreSamples.flagUrl
    (chunk ["FR"; "JP"; "US"] CODES_PER_CHUNK).
Proof.
  intros n part Hpart. change (chunk ["FR"; "JP"; "US"] CODES_PER_CHUNK)
    with [["FR"; "JP"; "US"]] in Hpart.
  apply elem_of_cons in Hpart as [->|Hpart]; [reflexivity|].
  by apply elem_of_nil in Hpart.
Qed.

Lemma working_answersDownloads :
  answersDownloads MoreSamples.working MoreSamples.flagUrl MoreSamples.flagBytes
    ["FR"; "JP"; "US"].
Proof. intros n code _. reflexivity. Qed.

Lemma working_plainCodes : plainCodes MoreSamples.flagUrl ["FR"; "JP"; "US"].
Proof. repeat (constructor; [by repeat split|]). constructor. Qed.

Lemma working_writesAccepted : writesAccepted MoreSamples.working.
Proof. intros w path bytes. reflexivity. Qed.

Lemma run_on_working_network_witness :
  answersMetadata MoreSamples.working MoreSamples.flagUrl
    (chunk ["FR"; "JP"; "US"] CODES_PER_CHUNK)
  ∧ answersDownloads MoreSamples.working MoreSamples.flagUrl MoreSamples.flagBytes
      ["FR"; "JP"; "US"]
  ∧ plainCodes MoreSamples.flagUrl ["FR"; "JP"; "US"]
  ∧ mkdirAccepted MoreSamples.working Samples.freshCheckout
  ∧ writesAccepted MoreSamples.working
  ∧ exitCode Samples.freshCheckout = None
  ∧ exitStatus (run MoreSamples.working ["FR"; "JP"; "US"] Samples.freshCheckout) = 0.
Proof.
  split; [exact working_answersMetadata|].
  split; [exact working_answersDownloads|].
  split; [exact working_plainCodes|].
  split; [reflexivity|].
  split; [exact working_writesAccepted|].
  split; [reflexivity|].
  destruct (run_on_working_network MoreSamples.working MoreSamples.flagUrl
              MoreSamples.flagBytes ["FR"; "JP"; "US"] Samples.freshCheckout
              working_answersMetadata working_answersDownloads working_plainCodes
              eq_refl working_writesAccepted eq_refl)
    as (evs & files' & _ & _ & _ & _ & _ & Hexit).
  exact Hexit.
Defined.

End WorkingNetworkWitness.
